(** * csearch: query composition, candidate filtering and the bounded scan

    A shallow embedding of [cmd/csearch/csearch.go] (function [Main] and
    [main]) and of the earlier revision of the same file (the one with a
    single [-f] filter), followed by the properties of the specification
    that concern them.

    The packages [codesearch/regexp] and [codesearch/index] are the
    collaborators of [Main]; this development does not look inside them:
    everything [Main] calls in them is gathered in the class
    [Collaborators] and the development is parametric in it.  An instance
    for concrete runs is in the module [Toy] at the end of the
    definitions. *)

From Stdlib Require Import ZArith Lia.
From stdpp Require Import base list strings.

Local Open Scope Z_scope.

(** ** Machine integers *)

(** Go's [int] on a 64-bit platform: two's complement, wrapping. *)
Definition min_int : Z := - 2 ^ 63.
Definition max_int : Z := 2 ^ 63 - 1.
Definition wrap_int (z : Z) : Z := (z + 2 ^ 63) mod 2 ^ 64 - 2 ^ 63.

(** File identifiers ([uint32] in the posting lists).  [Main] never computes
    with them: it only hands them back to the index. *)
Definition uint32 : Type := Z.

(** ** The collaborators *)

(** Modelled from the spec: [regexp.Grep], whose declaration is in the
    regexp package.  [Main] reads and writes three of its fields: [Regexp]
    (line 110), [Limit] (lines 186 and 190) and, in the earlier revision,
    [Match] (line 164).  The spec calls the budget a mutable integer; it is
    taken to be a Go [int].  The output streams are not fields here: what is
    written to them is recorded in the trace of the run. *)
Record Grep (R : Type) : Type := mkGrep {
  g_Regexp : option R;
  Limit : Z;
  Match : bool
}.
Arguments mkGrep {R} _ _ _.
Arguments g_Regexp {R} _.
Arguments Limit {R} _.
Arguments Match {R} _.

(** What [Main] calls outside its own file.  The index is taken as opened:
    a failure of [index.Open] ends the process inside the index package,
    before any of the steps below that use it. *)
Class Collaborators : Type := {
  Regexp : Type;
  Syntax : Type;
  Query : Type;
  (** [regexp.Compile]: the compiled expression, or the error *)
  Compile : string -> Regexp + string;
  (** the field [re.Syntax] *)
  re_Syntax : Regexp -> Syntax;
  (** [fre.MatchString(s, beginText, endText)]: negative when there is
      no match *)
  MatchString : Regexp -> string -> bool -> bool -> Z;
  (** [g.File(name)]: scans one file; the new value of the receiver *)
  File : Grep Regexp -> string -> Grep Regexp;
  (** [index.RegexpQuery] and [&index.Query{Op: index.QAll}] *)
  RegexpQuery : Syntax -> Query;
  QAll : Query;
  (** the index opened by [index.Open(index.File())] *)
  PostingQuery : Query -> list uint32;
  Name : uint32 -> string;
  (** [os.Create], seen through its error result *)
  Create : string -> option string
}.

(** ** Runs: a state, a trace and early exits *)

(** A computation either returns or leaves the process through [os.Exit]. *)
Inductive outcome (A : Type) : Type :=
| Return (a : A)
| Exit (code : Z).
Arguments Return {A} _.
Arguments Exit {A} _.

Section Runs.
Context `{C : Collaborators}.

(** What a run does that can be observed from outside. *)
Inductive event : Type :=
| Usage                          (* the usage message on stderr *)
| Fatal (err : string)           (* log.Fatal(err) *)
| LogQuery (q : Query)           (* log.Printf("query: %s\n", q) *)
| LogPost (n : nat)              (* log.Printf("post query identified ...") *)
| LogFiltered (n : nat)          (* log.Printf("filename regexp matched ...") *)
| StartCPUProfile (path : string)
| StopCPUProfile
| PostingQueryCall (q : Query)   (* ix.PostingQuery *)
| NameCall (fileid : uint32)     (* ix.Name *)
| Print (name : string)          (* fmt.Fprintf(g.Stdout, "%s\n", name) *)
| FileCall (name : string).      (* g.File(name) *)

(** The package-level variable [matches] and the trace so far. *)
Record world : Type := mkWorld {
  matches : bool;
  trace : list event
}.

Definition initial : world := mkWorld false [].

Definition M (A : Type) : Type := world -> outcome A * world.

Definition ret {A} (a : A) : M A := fun w => (Return a, w).

Definition bind {A B} (m : M A) (k : A -> M B) : M B :=
  fun w =>
    match m w with
    | (Return a, w') => k a w'
    | (Exit c, w') => (Exit c, w')
    end.

Definition record (es : list event) (w : world) : world :=
  mkWorld (matches w) (trace w ++ es).

Definition emit (e : event) : M unit := fun w => (Return tt, record [e] w).

Definition os_Exit {A} (code : Z) : M A := fun w => (Exit code, w).

(** [log.Fatal]: print, then [os.Exit(1)]. *)
Definition log_Fatal {A} (err : string) : M A :=
  bind (emit (Fatal err)) (fun _ => os_Exit 1).

Definition when (b : bool) (m : M unit) : M unit := if b then m else ret tt.

Definition set_matches (b : bool) : M unit :=
  fun w => (Return tt, mkWorld b (trace w)).

(** [ix.Name(fileid)] *)
Definition ix_Name (fileid : uint32) : M string :=
  bind (emit (NameCall fileid)) (fun _ => ret (Name fileid)).

(** [ix.PostingQuery(q)] *)
Definition ix_PostingQuery (q : Query) : M (list uint32) :=
  bind (emit (PostingQueryCall q)) (fun _ => ret (PostingQuery q)).

End Runs.

Notation "'let*' x ':=' m 'in' k" := (bind m (fun x => k))
  (at level 10, x name, m at level 100, k at level 200).
Notation "m '>>' k" := (bind m (fun _ => k))
  (at level 100, k at level 200, right associativity).

(** ** The current revision: [cmd/csearch/csearch.go] *)

Section Csearch.
Context `{C : Collaborators}.

(** ** The command line, parsed *)

Record Flags : Type := mkFlags {
  iFlag : bool;
  onlyListCandidates : bool;
  verboseFlag : bool;
  bruteFlag : bool;
  cpuProfile : string;
  allowFiles : list string;
  blockFiles : list string;
  (** [flag.Args()] *)
  args : list string;
  (** [g.Limit] once [g.AddFlags()] and [flag.Parse()] have run *)
  limit : Z
}.

(** ** [Main], block by block *)

(** [usage] (lines 46-49) *)
Definition usage {A} : M A := emit Usage >> os_Exit 2.

(** Lines 92-100.  The two deferred calls run when [Main] returns; see
    [Main] below. *)
Definition startProfile (path : string) : M unit :=
  if String.eqb path "" then ret tt
  else match Create path with
       | Some err => log_Fatal err
       | None => emit (StartCPUProfile path)
       end.

(** Lines 102-105 *)
Definition effectivePattern (i : bool) (arg : string) : string :=
  let pat := "(?m)" +:+ arg in
  if i then "(?i)" +:+ pat else pat.

(** Lines 106-109 *)
Definition compileOrDie (pat : string) : M Regexp :=
  match Compile pat with
  | inl re => ret re
  | inr err => log_Fatal err
  end.

(** Lines 113-120 and 124-131: the loop that compiles the raw expressions in
    order, appending to [fres]. *)
Fixpoint compileLoop (raw : list string) (fres : list Regexp) : M (list Regexp) :=
  match raw with
  | [] => ret fres
  | fFlag :: rest =>
      let* fre := compileOrDie fFlag in
      compileLoop rest (fres ++ [fre])
  end.

(** Lines 111-121 and 122-132 *)
Definition compileFilters (raw : list string) : M (list Regexp) :=
  if (0 <? length raw)%nat then compileLoop raw [] else ret [].

(** Lines 156-161: the value of [matches] after the allow loop. *)
Fixpoint allowLoop (allowFres : list Regexp) (name : string) : bool :=
  match allowFres with
  | [] => true
  | fre :: rest =>
      if MatchString fre name true true <? 0 then false
      else allowLoop rest name
  end.

(** Lines 165-170: the value of [matches] after the block loop, entered with
    [matches] true. *)
Fixpoint blockLoop (blockFres : list Regexp) (name : string) : bool :=
  match blockFres with
  | [] => true
  | fre :: rest =>
      if 0 <=? MatchString fre name true true then false
      else blockLoop rest name
  end.

(** Lines 155-173: whether the body of the filtering loop appends. *)
Definition keep (allowFres blockFres : list Regexp) (name : string) : bool :=
  let matches := allowLoop allowFres name in
  if negb matches then false
  else blockLoop blockFres name.

(** Lines 153-174 *)
Fixpoint filterLoop (allowFres blockFres : list Regexp)
    (post fnames : list uint32) : M (list uint32) :=
  match post with
  | [] => ret fnames
  | fileid :: rest =>
      let* name := ix_Name fileid in
      if keep allowFres blockFres name
      then filterLoop allowFres blockFres rest (fnames ++ [fileid])
      else filterLoop allowFres blockFres rest fnames
  end.

(** Lines 150-180: the candidate set handed to the scan. *)
Definition selectCandidates (verbose : bool) (allowFres blockFres : list Regexp)
    (post : list uint32) : M (list uint32) :=
  if (0 <? length allowFres)%nat || (0 <? length blockFres)%nat then
    let* fnames := filterLoop allowFres blockFres post [] in
    when verbose (emit (LogFiltered (length fnames))) >>
    ret fnames
  else ret post.

(** Line 186: [g.Limit--] *)
Definition decrement (g : Grep Regexp) : Grep Regexp :=
  mkGrep (g_Regexp g) (wrap_int (Limit g - 1)) (Match g).

(** Lines 183-189: one candidate. *)
Definition visit (onlyList : bool) (fileid : uint32) (g : Grep Regexp)
    : M (Grep Regexp) :=
  let* name := ix_Name fileid in
  if onlyList then
    emit (Print name) >> ret (decrement g)
  else
    emit (FileCall name) >> ret (File g name).

(** Lines 182-193 *)
Fixpoint searchLoop (onlyList : bool) (post : list uint32) (g : Grep Regexp)
    : M (Grep Regexp) :=
  match post with
  | [] => ret g
  | fileid :: rest =>
      let* g' := visit onlyList fileid g in
      if Limit g' =? 0 then ret g'
      else searchLoop onlyList rest g'
  end.

(** Lines 133-148 *)
Definition queryIndex (verbose brute : bool) (re : Regexp) : M (list uint32) :=
  let q := RegexpQuery (re_Syntax re) in
  when verbose (emit (LogQuery q)) >>
  let* post := (if brute then ix_PostingQuery QAll else ix_PostingQuery q) in
  when verbose (emit (LogPost (length post))) >>
  ret post.

(** The deferred [pprof.StopCPUProfile()] and [f.Close()], run when [Main]
    returns (and not when the process exits from inside it). *)
Definition deferred (path : string) : M unit :=
  when (negb (String.eqb path "")) (emit StopCPUProfile).

(** [Main] (lines 75-194).  The Go function returns nothing; the model
    returns the last value of its local [g] so that statements can speak
    about [g.Limit] and [g.Match] at the end of the run. *)
Definition Main (fl : Flags) : M (Grep Regexp) :=
  let g : Grep Regexp := mkGrep None (limit fl) false in
  match args fl with
  | [arg] =>
      startProfile (cpuProfile fl) >>
      let* re := compileOrDie (effectivePattern (iFlag fl) arg) in
      let g := mkGrep (Some re) (Limit g) (Match g) in
      let* allowFres := compileFilters (allowFiles fl) in
      let* blockFres := compileFilters (blockFiles fl) in
      let* post := queryIndex (verboseFlag fl) (bruteFlag fl) re in
      let* post := selectCandidates (verboseFlag fl) allowFres blockFres post in
      let* g := searchLoop (onlyListCandidates fl) post g in
      deferred (cpuProfile fl) >>
      ret g
  | _ => usage
  end.

(** [main] (lines 196-199): the exit status of the process and the final
    state. *)
Definition main (fl : Flags) : Z * world :=
  match (Main fl >> os_Exit (A:=unit) 0) initial with
  | (Exit code, w) => (code, w)
  | (Return _, w) => (0, w)
  end.

End Csearch.

(** ** The earlier revision: a single list of [-f] filters *)

(** The earlier revision differs from the current one in three places: the
    filtering step knows one list of expressions, the scan has no listing
    mode, and the exit status depends on [g.Match].  What the two share word
    for word ([usage], the profile, the compilation of the pattern and of
    the filters, the query) is taken from above. *)
Module Old.
Section Csearch.
Context `{C : Collaborators}.

Record Flags : Type := mkFlags {
  iFlag : bool;
  verboseFlag : bool;
  bruteFlag : bool;
  cpuProfile : string;
  fFlags : list string;
  args : list string;
  limit : Z
}.

(** Lines 138-144: the value of [matches] after the inner loop. *)
Fixpoint matchLoop (fres : list Regexp) (name : string) : bool :=
  match fres with
  | [] => true
  | fre :: rest =>
      if MatchString fre name true true <? 0 then false
      else matchLoop rest name
  end.

(** Lines 136-148 *)
Fixpoint filterLoop (fres : list Regexp) (post fnames : list uint32)
    : M (list uint32) :=
  match post with
  | [] => ret fnames
  | fileid :: rest =>
      let* name := ix_Name fileid in
      if bool_decide (matchLoop fres name = true)
      then filterLoop fres rest (fnames ++ [fileid])
      else filterLoop fres rest fnames
  end.

(** Lines 133-154 *)
Definition selectCandidates (verbose : bool) (fres : list Regexp)
    (post : list uint32) : M (list uint32) :=
  if (0 <? length fres)%nat then
    let* fnames := filterLoop fres post [] in
    when verbose (emit (LogFiltered (length fnames))) >>
    ret fnames
  else ret post.

(** Lines 156-162 *)
Fixpoint searchLoop (post : list uint32) (g : Grep Regexp) : M (Grep Regexp) :=
  match post with
  | [] => ret g
  | fileid :: rest =>
      let* name := ix_Name fileid in
      emit (FileCall name) >>
      let g' := File g name in
      if Limit g' =? 0 then ret g'
      else searchLoop rest g'
  end.

(** [Main] (lines 70-165).  The assignment to the package-level [matches]
    (line 164) comes before the deferred calls. *)
Definition Main (fl : Flags) : M (Grep Regexp) :=
  let g : Grep Regexp := mkGrep None (limit fl) false in
  match args fl with
  | [arg] =>
      startProfile (cpuProfile fl) >>
      let* re := compileOrDie (effectivePattern (iFlag fl) arg) in
      let g := mkGrep (Some re) (Limit g) (Match g) in
      let* fres := compileFilters (fFlags fl) in
      let* post := queryIndex (verboseFlag fl) (bruteFlag fl) re in
      let* post := selectCandidates (verboseFlag fl) fres post in
      let* g := searchLoop post g in
      set_matches (Match g) >>
      deferred (cpuProfile fl) >>
      ret g
  | _ => usage
  end.

(** Lines 169-171 *)
Definition exitStatus : M unit :=
  fun w => if negb (matches w) then os_Exit 1 w else os_Exit 0 w.

(** [main] (lines 167-173) *)
Definition main (fl : Flags) : Z * world :=
  match (Main fl >> exitStatus) initial with
  | (Exit code, w) => (code, w)
  | (Return _, w) => (0, w)
  end.

End Csearch.
End Old.

(** ** Vocabulary of the statements *)

Section Vocabulary.
Context `{C : Collaborators}.

(** [matches(name, expr)] of the spec: the test of lines 157 and 166,
    anchored at both ends. *)
Definition matchesName (name : string) (fre : Regexp) : Prop :=
  0 <= MatchString fre name true true.

(** A candidate that the body of the filtering loop appends. *)
Definition accepted (allowFres blockFres : list Regexp) (fileid : uint32) : Prop :=
  keep allowFres blockFres (Name fileid) = true.

#[global] Instance accepted_dec allowFres blockFres fileid :
  Decision (accepted allowFres blockFres fileid) :=
  decide (keep allowFres blockFres (Name fileid) = true).

(** A raw expression that [regexp.Compile] rejects. *)
Definition invalidExpr (raw : string) : Prop :=
  match Compile raw with inl _ => False | inr _ => True end.

(** The events of the search proper: the index query, the resolution of a
    name, a listed name, a scanned file. *)
Definition searches (e : event) : bool :=
  match e with
  | PostingQueryCall _ | NameCall _ | Print _ | FileCall _ => true
  | _ => false
  end.

(** What the scan leaves in the trace for one candidate. *)
Definition visitEvents (onlyList : bool) (fileid : uint32) : list event :=
  [NameCall fileid;
   if onlyList then Print (Name fileid) else FileCall (Name fileid)].

(** The value of [g] after one candidate (lines 183-189). *)
Definition visited (onlyList : bool) (fileid : uint32) (g : Grep Regexp)
    : Grep Regexp :=
  if onlyList then decrement g else File g (Name fileid).

(** Modelled from the spec: the "unlimited" budget.  The spec names a
    sentinel value that never triggers termination; its value is given to
    [g.Limit] in the regexp package.  The scan stops on [g.Limit == 0] alone, tested after a candidate; the
    budgets that counting down never brings to zero are the negative ones,
    and the sentinel is taken to be any of them. *)
Definition unlimited (budget : Z) : Prop := budget < 0.

(** The exit status as the spec has it, for a run of [main] that comes back
    from [Main]: zero when [g.Match] is set at the end, one when it is not. *)
Definition exitStatusFollowsMatch (fl : Flags) : Prop :=
  forall g w, Main fl initial = (Return g, w) ->
              (main fl).1 = if Match g then 0 else 1.

End Vocabulary.

(** ** A small concrete world *)

(** An index of four files and stand-ins for the two engines, small enough
    to run [main] on: an expression is kept as its text and matches the
    names it is a prefix of; a file has a matching line when its name starts
    with [go/]; an expression whose text ends in an open parenthesis alone
    does not compile. *)
Module Toy.

Definition names : list string := ["go/a"; "txt/b"; "go/c"; "go/a_test"].

Definition invalid : list string := ["("; "(?m)("; "(?i)(?m)("].

Definition toyCompile (s : string) : string + string :=
  if bool_decide (s ∈ invalid) then inr "missing closing )" else inl s.

Definition toyMatch (re name : string) (_ _ : bool) : Z :=
  if String.prefix re name then 0 else -1.

Definition toyFile (g : Grep string) (name : string) : Grep string :=
  if String.prefix "go/" name then
    mkGrep (g_Regexp g) (if 0 <? Limit g then Limit g - 1 else Limit g) true
  else g.

Definition toyPosting (q : option string) : list uint32 :=
  match q with
  | Some "(?m)nothing" => []
  | _ => [0; 1; 2; 3]
  end.

Definition toyName (fileid : uint32) : string :=
  nth (Z.to_nat fileid) names "".

Definition toyCreate (path : string) : option string :=
  if String.eqb path "/" then Some "open /: is a directory" else None.

Definition toy : Collaborators := {|
  Regexp := string;
  Syntax := string;
  Query := option string;
  Compile := toyCompile;
  re_Syntax := fun re => re;
  MatchString := toyMatch;
  File := toyFile;
  RegexpQuery := Some;
  QAll := None;
  PostingQuery := toyPosting;
  Name := toyName;
  Create := toyCreate
|}.

(** [csearch foo], with nothing else on the command line and no budget. *)
Definition plain (pattern : string) : Flags :=
  mkFlags false false false false "" [] [] [pattern] (-1).

(** [csearch --allow-files txt/ foo]: the one candidate left has no
    matching line. *)
Definition textOnly : Flags :=
  mkFlags false false false false "" ["txt/"] [] ["foo"] (-1).

(** [csearch --allow-files go/ --block-files '(' foo] *)
Definition badBlock : Flags :=
  mkFlags false false false false "" ["go/"] ["("] ["foo"] (-1).

(** [csearch -i '('] *)
Definition badPattern : Flags :=
  mkFlags true false false false "" [] [] ["("] (-1).

End Toy.

(** ** Repeated flags *)

(** [arrayFlags] (line 61) *)
Definition arrayFlags : Type := list string.

(** [arrayFlags.String] (lines 63-65) *)
Definition arrayFlags_String (i : arrayFlags) : string :=
  "my string representation".

(** [arrayFlags.Set] (lines 67-70): the new value of the receiver and the
    error returned. *)
Definition arrayFlags_Set (i : arrayFlags) (value : string)
    : arrayFlags * option string :=
  (i ++ [value], None).

(** What the flag package does with a repeated flag: one call of [Set] for
    each occurrence, in the order of the command line, until one of them
    returns an error. *)
Fixpoint setEach (i : arrayFlags) (values : list string)
    : arrayFlags * option string :=
  match values with
  | [] => (i, None)
  | value :: rest =>
      match arrayFlags_Set i value with
      | (i', None) => setEach i' rest
      | (i', Some err) => (i', Some err)
      end
  end.

(** ** The trace, block by block *)

Section Traces.
Context `{C : Collaborators}.

(** The query that lines 141-145 hand to the index. *)
Definition queryOf (brute : bool) (re : Regexp) : Query :=
  if brute then QAll else RegexpQuery (re_Syntax re).

(** What lines 133-148 leave in the trace. *)
Definition queryEvents (verbose brute : bool) (re : Regexp) : list event :=
  (if verbose then [LogQuery (RegexpQuery (re_Syntax re))] else []) ++
  PostingQueryCall (queryOf brute re) ::
  (if verbose then [LogPost (length (PostingQuery (queryOf brute re)))] else []).

(** What lines 150-180 leave in the trace. *)
Definition filterEvents (verbose : bool) (allowFres blockFres : list Regexp)
    (post : list uint32) : list event :=
  match allowFres, blockFres with
  | [], [] => []
  | _, _ =>
      map NameCall post ++
      (if verbose
       then [LogFiltered (length (filter (accepted allowFres blockFres) post))]
       else [])
  end.

(** What the scan leaves in the trace for the candidates it visits. *)
Definition scanEvents (onlyList : bool) (seen : list uint32) : list event :=
  concat (map (visitEvents onlyList) seen).

Definition profileStartEvents (path : string) : list event :=
  if String.eqb path "" then [] else [StartCPUProfile path].

Definition profileStopEvents (path : string) : list event :=
  if String.eqb path "" then [] else [StopCPUProfile].



(** The events of the profile. *)
Definition isProfile (e : event) : bool :=
  match e with
  | StartCPUProfile _ | StopCPUProfile => true
  | _ => false
  end.


(** A command line of the earlier revision, given to the current one: the
    [-f] expressions as allow filters, no block filter, no listing. *)
Definition ofOld (fl : Old.Flags) : Flags :=
  mkFlags (Old.iFlag fl) false (Old.verboseFlag fl) (Old.bruteFlag fl)
    (Old.cpuProfile fl) (Old.fFlags fl) [] (Old.args fl) (Old.limit fl).

End Traces.

(** * Properties *)

(** ** Running the pieces *)

Section RunLemmas.
Context `{C : Collaborators}.

Lemma record_nil (w : world) : record [] w = w.
Proof. destruct w; unfold record; simpl. by rewrite app_nil_r. Qed.

Lemma record_record (es1 es2 : list event) (w : world) :
  record es2 (record es1 w) = record (es1 ++ es2) w.
Proof. unfold record; simpl. by rewrite app_assoc. Qed.

Lemma ix_Name_run (fileid : uint32) (w : world) :
  ix_Name fileid w = (Return (Name fileid), record [NameCall fileid] w).
Proof. reflexivity. Qed.

Lemma when_run (b : bool) (e : event) (w : world) :
  when b (emit e) w = (Return tt, record (if b then [e] else []) w).
Proof. destruct b; simpl; [reflexivity|]. by rewrite record_nil. Qed.

Lemma allowLoop_true (allowFres : list Regexp) (name : string) :
  allowLoop allowFres name = true <-> Forall (matchesName name) allowFres.
Proof.
  unfold matchesName. induction allowFres as [|fre rest IH]; simpl.
  - split; [constructor | done].
  - destruct (Z.ltb_spec (MatchString fre name true true) 0) as [Hlt|Hge].
    + split; [done|]. intros H. apply Forall_cons in H as [H _]. lia.
    + rewrite IH. split; [by constructor | intros H; by apply Forall_cons in H as [_ H]].
Qed.

Lemma blockLoop_true (blockFres : list Regexp) (name : string) :
  blockLoop blockFres name = true <-> ¬ Exists (matchesName name) blockFres.
Proof.
  unfold matchesName. induction blockFres as [|fre rest IH]; simpl.
  - split; [|done]. intros _ H. by apply Exists_nil in H.
  - destruct (Z.leb_spec 0 (MatchString fre name true true)) as [Hle|Hgt].
    + split; [done|]. intros H. destruct H. by apply Exists_cons_hd.
    + rewrite IH. split.
      * intros Hn H. apply Exists_cons in H as [H|H]; [lia | done].
      * intros Hn H. apply Hn. by apply Exists_cons_tl.
Qed.

Lemma keep_true (allowFres blockFres : list Regexp) (name : string) :
  keep allowFres blockFres name = true <->
  Forall (matchesName name) allowFres ∧ ¬ Exists (matchesName name) blockFres.
Proof.
  unfold keep. rewrite <- allowLoop_true, <- blockLoop_true.
  destruct (allowLoop allowFres name); simpl; intuition congruence.
Qed.

Lemma filterLoop_run (allowFres blockFres : list Regexp)
    (post fnames : list uint32) (w : world) :
  filterLoop allowFres blockFres post fnames w =
  (Return (fnames ++ filter (accepted allowFres blockFres) post),
   record (map NameCall post) w).
Proof.
  revert fnames w. induction post as [|fileid rest IH]; intros fnames w; simpl.
  - by rewrite app_nil_r, record_nil.
  - unfold bind at 1. rewrite ix_Name_run.
    rewrite filter_cons.
    destruct (decide (accepted allowFres blockFres fileid)) as [Hy|Hn].
    + unfold accepted in Hy. rewrite Hy, IH, record_record, <- app_assoc.
      reflexivity.
    + unfold accepted in Hn. apply not_true_is_false in Hn.
      rewrite Hn, IH, record_record. reflexivity.
Qed.

Lemma accepted_without_filters (fileid : uint32) : accepted [] [] fileid.
Proof. reflexivity. Qed.

Lemma filter_accepted_nil (post : list uint32) :
  filter (accepted [] []) post = post.
Proof.
  induction post as [|x l IH]; [done|].
  rewrite filter_cons. destruct decide as [_|Hn]; [by rewrite IH|].
  destruct Hn. apply accepted_without_filters.
Qed.

(** The candidate set handed to the scan is the raw one, filtered by
    [accepted]; the trace gains one name resolution per raw candidate when
    there is a filter, and the count when the run is verbose. *)
Lemma selectCandidates_run (verbose : bool) (allowFres blockFres : list Regexp)
    (post : list uint32) (w : world) :
  selectCandidates verbose allowFres blockFres post w =
  (Return (filter (accepted allowFres blockFres) post),
   record (match allowFres, blockFres with
           | [], [] => []
           | _, _ => map NameCall post ++
               (if verbose
                then [LogFiltered (length (filter (accepted allowFres blockFres) post))]
                else [])
           end) w).
Proof.
  unfold selectCandidates.
  destruct allowFres as [|a allowFres], blockFres as [|b blockFres]; simpl;
    try (by rewrite filter_accepted_nil, record_nil);
    unfold bind; rewrite filterLoop_run; simpl;
    rewrite when_run, record_record; reflexivity.
Qed.

End RunLemmas.

(** ** Filename filtering *)

Section Filtering.
Context `{C : Collaborators}.

Lemma elem_of_filtered (allowFres blockFres : list Regexp)
    (post : list uint32) (fileid : uint32) :
  fileid ∈ filter (accepted allowFres blockFres) post <->
  fileid ∈ post ∧ Forall (matchesName (Name fileid)) allowFres
               ∧ ¬ Exists (matchesName (Name fileid)) blockFres.
Proof.
  rewrite list_elem_of_filter. unfold accepted. rewrite keep_true. tauto.
Qed.

(** C2.  Whatever the allow sequence (in particular when it is not empty),
    the filtering step returns, and every candidate of the set it returns
    is a raw candidate whose resolved name matches every allow
    expression. *)
Theorem accepted_matches_every_allow (verbose : bool)
    (allowFres blockFres : list Regexp) (post : list uint32) (w : world) :
  exists filtered w',
    selectCandidates verbose allowFres blockFres post w = (Return filtered, w') ∧
    forall fileid, fileid ∈ filtered ->
      fileid ∈ post ∧ Forall (matchesName (Name fileid)) allowFres.
Proof.
  eexists _, _. split; [apply selectCandidates_run|].
  intros fileid Hin. apply elem_of_filtered in Hin. tauto.
Qed.

(** C3.  A candidate whose resolved name matches some block expression is
    not in the filtered set, whatever the allow expressions say about it. *)
Theorem blocked_is_excluded (verbose : bool)
    (allowFres blockFres : list Regexp) (post : list uint32) (w : world)
    (fileid : uint32) :
  Exists (matchesName (Name fileid)) blockFres ->
  exists filtered w',
    selectCandidates verbose allowFres blockFres post w = (Return filtered, w') ∧
    fileid ∉ filtered.
Proof.
  intros Hblock. eexists _, _. split; [apply selectCandidates_run|].
  intros Hin. apply elem_of_filtered in Hin. tauto.
Qed.

(** C4.  The filtered set is a subsequence of the raw set, and two accepted
    candidates that follow one another in the raw set follow one another in
    the filtered set, with between and around them what was accepted
    between and around them. *)
Theorem filtering_is_stable (verbose : bool)
    (allowFres blockFres : list Regexp) (post : list uint32) (w : world) :
  exists filtered w',
    selectCandidates verbose allowFres blockFres post w = (Return filtered, w') ∧
    sublist filtered post ∧
    forall r1 a r2 b r3,
      post = r1 ++ a :: r2 ++ b :: r3 ->
      a ∈ filtered -> b ∈ filtered ->
      exists f1 f2 f3,
        filtered = f1 ++ a :: f2 ++ b :: f3 ∧
        sublist f1 r1 ∧ sublist f2 r2 ∧ sublist f3 r3.
Proof.
  eexists _, _. split; [apply selectCandidates_run|].
  split; [apply sublist_filter|].
  intros r1 a r2 b r3 -> Ha Hb.
  apply list_elem_of_filter in Ha as [Ha _], Hb as [Hb _].
  exists (filter (accepted allowFres blockFres) r1),
         (filter (accepted allowFres blockFres) r2),
         (filter (accepted allowFres blockFres) r3).
  split; [|auto using sublist_filter].
  rewrite filter_app, filter_cons, filter_app, filter_cons.
  destruct (decide (accepted allowFres blockFres a)); [|done].
  destruct (decide (accepted allowFres blockFres b)); [|done].
  reflexivity.
Qed.

(** C5.  Without any filter the step returns the raw candidate set as it
    is, and leaves the state and the trace as they were: no name is
    resolved. *)
Theorem no_filter_short_circuit (verbose : bool) (post : list uint32) (w : world) :
  selectCandidates verbose [] [] post w = (Return post, w).
Proof. reflexivity. Qed.

(** Without block expressions the decision is the one of the earlier
    revision. *)
Lemma keep_without_block (fres : list Regexp) (name : string) :
  keep fres [] name = Old.matchLoop fres name.
Proof.
  unfold keep. induction fres as [|fre fres IH]; simpl; [reflexivity|].
  destruct (_ <? 0); [reflexivity | apply IH].
Qed.

(** The loop of the earlier revision, run. *)
Lemma old_filterLoop_run (fres : list Regexp) (post fnames : list uint32) (w : world) :
  Old.filterLoop fres post fnames w = filterLoop fres [] post fnames w.
Proof.
  revert fnames w. induction post as [|fileid rest IH]; intros fnames w; simpl.
  - reflexivity.
  - unfold bind. rewrite ix_Name_run.
    rewrite keep_without_block.
    destruct (Old.matchLoop fres (Name fileid)); simpl; apply IH.
Qed.

(** C10.  With the expressions as allow filters and no block filter, the
    filtering step of the current revision does what the step of the
    earlier revision did with the same expressions as [-f] filters: same
    candidate set, same state, same trace. *)
Theorem allow_only_refines_old (verbose : bool) (fres : list Regexp)
    (post : list uint32) (w : world) :
  selectCandidates verbose fres [] post w = Old.selectCandidates verbose fres post w.
Proof.
  unfold selectCandidates, Old.selectCandidates.
  rewrite orb_false_r. destruct (0 <? length fres)%nat; [|reflexivity].
  unfold bind. by rewrite old_filterLoop_run.
Qed.

End Filtering.

(** ** The bounded scan *)

Section Scan.
Context `{C : Collaborators}.

Lemma wrap_int_in_range (z : Z) : min_int <= z <= max_int -> wrap_int z = z.
Proof.
  unfold min_int, max_int, wrap_int. intros Hz.
  rewrite Z.mod_small; lia.
Qed.

Lemma decrement_Limit (g : Grep Regexp) :
  min_int < Limit g <= max_int -> Limit (decrement g) = Limit g - 1.
Proof. intros Hg. simpl. apply wrap_int_in_range. lia. Qed.

Lemma visit_run (onlyList : bool) (fileid : uint32) (g : Grep Regexp) (w : world) :
  visit onlyList fileid g w =
  (Return (visited onlyList fileid g), record (visitEvents onlyList fileid) w).
Proof.
  unfold visit, visited, visitEvents, bind. rewrite ix_Name_run.
  destruct onlyList; simpl; by rewrite record_record.
Qed.

Lemma searchLoop_cons (onlyList : bool) (fileid : uint32) (rest : list uint32)
    (g : Grep Regexp) (w : world) :
  searchLoop onlyList (fileid :: rest) g w =
  let g' := visited onlyList fileid g in
  let w' := record (visitEvents onlyList fileid) w in
  if Limit g' =? 0 then (Return g', w') else searchLoop onlyList rest g' w'.
Proof.
  simpl. unfold bind. rewrite visit_run. simpl.
  by destruct (Limit _ =? 0).
Qed.

(** The scan always returns, and adds to the trace nothing but the events
    of the candidates it visited, a prefix of the candidate set. *)
Lemma searchLoop_returns (onlyList : bool) (post : list uint32)
    (g : Grep Regexp) (w : world) :
  exists g' n,
    searchLoop onlyList post g w =
    (Return g', record (concat (map (visitEvents onlyList) (take n post))) w).
Proof.
  revert g w. induction post as [|fileid rest IH]; intros g w.
  - exists g, 0%nat. simpl. by rewrite record_nil.
  - rewrite searchLoop_cons. simpl.
    destruct (Limit _ =? 0).
    + exists (visited onlyList fileid g), 1%nat. simpl. by destruct rest.
    + destruct (IH (visited onlyList fileid g)
                  (record (visitEvents onlyList fileid) w)) as (g' & n & Hrun).
      exists g', (S n). rewrite Hrun, record_record. reflexivity.
Qed.

(** One more candidate in the prefix: either the scan of the shorter prefix
    had stopped on a zero budget and nothing changes, or the candidate is
    visited after it. *)
Lemma searchLoop_take_S (onlyList : bool) (post : list uint32)
    (g : Grep Regexp) (w : world) (k : nat) :
  exists g1 w1,
    searchLoop onlyList (take k post) g w = (Return g1, w1) ∧
    searchLoop onlyList (take (S k) post) g w =
    match post !! k with
    | None => (Return g1, w1)
    | Some fileid =>
        if (k =? 0)%nat || negb (Limit g1 =? 0)
        then (Return (visited onlyList fileid g1),
              record (visitEvents onlyList fileid) w1)
        else (Return g1, w1)
    end.
Proof.
  revert g w k. induction post as [|fileid rest IH]; intros g w k.
  - exists g, w. by destruct k.
  - destruct k as [|k].
    + exists g, w. split; [reflexivity|].
      simpl take. rewrite searchLoop_cons. simpl.
      by destruct (Limit _ =? 0).
    + simpl take. rewrite !searchLoop_cons. simpl.
      destruct (Limit (visited onlyList fileid g) =? 0) eqn:Hzero.
      * eexists _, _. split; [reflexivity|].
        destruct (rest !! k); [|reflexivity]. by rewrite Hzero.
      * destruct (IH (visited onlyList fileid g)
                    (record (visitEvents onlyList fileid) w) k)
          as (g1 & w1 & Hk & HSk).
        exists g1, w1. split; [exact Hk|]. rewrite HSk.
        destruct (rest !! k); [|reflexivity].
        destruct k as [|k]; [|reflexivity].
        simpl in Hk. injection Hk as <- <-. by rewrite Hzero.
Qed.

(** Once the budget is zero after a candidate, longer prefixes add nothing. *)
Lemma searchLoop_zero_stops (onlyList : bool) (post : list uint32)
    (g : Grep Regexp) (w : world) (j k : nat) (gj : Grep Regexp) (wj : world) :
  (j <= k)%nat -> j ≠ 0%nat ->
  searchLoop onlyList (take j post) g w = (Return gj, wj) ->
  Limit gj = 0 ->
  searchLoop onlyList (take k post) g w = (Return gj, wj).
Proof.
  intros Hjk Hj Hrun Hzero. induction Hjk as [|k Hjk IH]; [exact Hrun|].
  destruct (searchLoop_take_S onlyList post g w k) as (g1 & w1 & Hk & HSk).
  rewrite IH in Hk. injection Hk as <- <-.
  rewrite HSk. destruct (post !! k); [|reflexivity].
  rewrite Hzero. simpl. destruct k; [lia | reflexivity].
Qed.

(** In listing mode, within the range where the decrement does not wrap,
    the budget after [k] candidates is at most [k] below the initial one. *)
Lemma list_budget_bounds (post : list uint32) (g : Grep Regexp) (w : world) (k : nat) :
  min_int + Z.of_nat (length post) <= Limit g <= max_int ->
  exists gk wk,
    searchLoop true (take k post) g w = (Return gk, wk) ∧
    Limit g - Z.of_nat k <= Limit gk <= Limit g.
Proof.
  intros Hrange. induction k as [|k IH].
  - exists g, w. split; [reflexivity | lia].
  - destruct IH as (gk & wk & Hk & Hb).
    destruct (searchLoop_take_S true post g w k) as (g1 & w1 & Hk' & HSk).
    rewrite Hk in Hk'. injection Hk' as <- <-.
    rewrite HSk. destruct (post !! k) as [fileid|] eqn:Hlook.
    + apply lookup_lt_Some in Hlook.
      destruct (_ || _).
      * eexists _, _. split; [reflexivity|].
        unfold visited. rewrite decrement_Limit; lia.
      * eexists _, _. split; [reflexivity | lia].
    + eexists _, _. split; [reflexivity | lia].
Qed.

(** One more candidate does not raise the budget. *)
Lemma budget_step (onlyList : bool) (post : list uint32)
    (g : Grep Regexp) (w : world) (k : nat) :
  (onlyList = true -> min_int + Z.of_nat (length post) <= Limit g <= max_int) ->
  (onlyList = false -> forall g' name, Limit (File g' name) <= Limit g') ->
  exists g1 w1 g2 w2,
    searchLoop onlyList (take k post) g w = (Return g1, w1) ∧
    searchLoop onlyList (take (S k) post) g w = (Return g2, w2) ∧
    Limit g2 <= Limit g1.
Proof.
  intros Hrange HFile.
  destruct (searchLoop_take_S onlyList post g w k) as (g1 & w1 & Hk & HSk).
  exists g1, w1. rewrite HSk.
  destruct (post !! k) as [fileid|] eqn:Hlook;
    [|eexists _, _; split; [exact Hk | split; [reflexivity | lia]]].
  destruct (_ || _);
    [|eexists _, _; split; [exact Hk | split; [reflexivity | lia]]].
  eexists _, _. split; [exact Hk|]. split; [reflexivity|].
  unfold visited. destruct onlyList.
  - destruct (list_budget_bounds post g w k (Hrange eq_refl))
      as (gk & wk & Hk' & Hb).
    rewrite Hk in Hk'. injection Hk' as <- <-.
    apply lookup_lt_Some in Hlook.
    rewrite decrement_Limit; lia.
  - apply HFile. reflexivity.
Qed.

Lemma budget_monotone (onlyList : bool) (post : list uint32)
    (g : Grep Regexp) (w : world) (j k : nat) :
  (onlyList = true -> min_int + Z.of_nat (length post) <= Limit g <= max_int) ->
  (onlyList = false -> forall g' name, Limit (File g' name) <= Limit g') ->
  (j <= k)%nat ->
  exists gj wj gk wk,
    searchLoop onlyList (take j post) g w = (Return gj, wj) ∧
    searchLoop onlyList (take k post) g w = (Return gk, wk) ∧
    Limit gk <= Limit gj.
Proof.
  intros Hrange HFile Hjk. induction Hjk as [|k Hjk IH].
  - destruct (searchLoop_take_S onlyList post g w j) as (g1 & w1 & Hj & _).
    exists g1, w1, g1, w1. split; [exact Hj|]. split; [exact Hj | lia].
  - destruct IH as (gj & wj & gk & wk & Hj & Hk & Hle).
    destruct (budget_step onlyList post g w k Hrange HFile)
      as (g1 & w1 & g2 & w2 & Hk' & HSk & Hstep).
    rewrite Hk in Hk'. injection Hk' as <- <-.
    exists gj, wj, g2, w2. split; [exact Hj|]. split; [exact HSk | lia].
Qed.

(** Listing with a budget of two and at least three candidates. *)
Lemma list_two_of_three (a b c : uint32) (rest : list uint32)
    (g : Grep Regexp) (w : world) :
  Limit g = 2 ->
  exists g',
    searchLoop true (a :: b :: c :: rest) g w =
    (Return g', record [NameCall a; Print (Name a); NameCall b; Print (Name b)] w)
    ∧ Limit g' = 0.
Proof.
  intros Hg.
  assert (H1 : Limit (decrement g) = 1) by (simpl; by rewrite Hg).
  assert (H2 : Limit (decrement (decrement g)) = 0) by (simpl; by rewrite Hg).
  exists (decrement (decrement g)). split; [|exact H2].
  rewrite searchLoop_cons. cbv zeta. unfold visited. rewrite H1.
  change (1 =? 0) with false. cbv iota.
  rewrite searchLoop_cons. cbv zeta. unfold visited. rewrite H2.
  change (0 =? 0) with true. cbv iota.
  by rewrite record_record.
Qed.

(** C6.  Along a run of the scan the budget never increases (in listing
    mode as long as the decrement stays within the range of [int]; in
    content mode given that [g.File] does not raise it); once the budget
    is zero after a candidate, no further candidate is processed: the state
    and the trace stay as they are; and listing with a budget of two and
    three or more candidates resolves and prints the first two names, no
    more, and ends on a zero budget.  The state after [k] candidates is the
    result of the scan on the first [k] candidates. *)
Theorem budget_never_increases_zero_stops (onlyList : bool) (post : list uint32)
    (g : Grep Regexp) (w : world) :
  (onlyList = true -> min_int + Z.of_nat (length post) <= Limit g <= max_int) ->
  (onlyList = false -> forall g' name, Limit (File g' name) <= Limit g') ->
  (forall j k, (j <= k)%nat ->
     exists gj wj gk wk,
       searchLoop onlyList (take j post) g w = (Return gj, wj) ∧
       searchLoop onlyList (take k post) g w = (Return gk, wk) ∧
       Limit gk <= Limit gj ∧
       (j ≠ 0%nat -> Limit gj = 0 ->
        (gk, wk) = (gj, wj) ∧ searchLoop onlyList post g w = (Return gj, wj)))
  ∧
  (forall a b c rest g2 w2, Limit g2 = 2 ->
     exists g',
       searchLoop true (a :: b :: c :: rest) g2 w2 =
       (Return g', record [NameCall a; Print (Name a);
                           NameCall b; Print (Name b)] w2)
       ∧ Limit g' = 0).
Proof.
  intros Hrange HFile. split; [|intros; by apply list_two_of_three].
  intros j k Hjk.
  destruct (budget_monotone onlyList post g w j k Hrange HFile Hjk)
    as (gj & wj & gk & wk & Hj & Hk & Hle).
  exists gj, wj, gk, wk.
  split; [exact Hj|]. split; [exact Hk|]. split; [exact Hle|].
  intros Hj0 Hzero. split.
  - rewrite (searchLoop_zero_stops onlyList post g w j k gj wj) in Hk by done.
    by injection Hk as <- <-.
  - destruct (Nat.le_gt_cases j (length post)) as [Hle'|Hgt].
    + rewrite <- (firstn_all post) at 1.
      by apply (searchLoop_zero_stops onlyList post g w j).
    + rewrite take_ge in Hj by lia. exact Hj.
Qed.

(** Listing with a budget that is zero or negative at the start: every
    candidate is printed, and the budget ends that many below. *)
Lemma list_nonpositive_scans_all (post : list uint32) (g : Grep Regexp) (w : world) :
  Limit g <= 0 ->
  min_int + Z.of_nat (length post) <= Limit g ->
  exists g',
    searchLoop true post g w =
    (Return g', record (concat (map (visitEvents true) post)) w) ∧
    Limit g' = Limit g - Z.of_nat (length post).
Proof.
  revert g w. induction post as [|fileid rest IH]; intros g w Hle Hrange.
  - exists g. simpl. rewrite record_nil. split; [reflexivity | lia].
  - simpl length in Hrange.
    assert (Hdec : Limit (decrement g) = Limit g - 1)
      by (apply decrement_Limit; unfold max_int; lia).
    rewrite searchLoop_cons. cbv zeta. unfold visited. rewrite Hdec.
    destruct (Z.eqb_spec (Limit g - 1) 0) as [Heq|_]; [lia|].
    destruct (IH (decrement g) (record (visitEvents true fileid) w))
      as (g' & Hrun & Hg'); [lia | lia |].
    exists g'. rewrite Hrun, record_record. split; [reflexivity|].
    simpl length. lia.
Qed.

(** Content search with an unlimited budget that [g.File] leaves
    unlimited: every candidate is scanned. *)
Lemma content_unlimited_scans_all (post : list uint32) (g : Grep Regexp) (w : world) :
  (forall g' name, unlimited (Limit g') -> unlimited (Limit (File g' name))) ->
  unlimited (Limit g) ->
  exists g',
    searchLoop false post g w =
    (Return g', record (concat (map (visitEvents false) post)) w) ∧
    unlimited (Limit g').
Proof.
  intros HFile. revert g w.
  induction post as [|fileid rest IH]; intros g w Hg.
  - exists g. simpl. by rewrite record_nil.
  - rewrite searchLoop_cons. cbv zeta. unfold visited.
    pose proof (HFile g (Name fileid) Hg) as Hg'. unfold unlimited in Hg'.
    destruct (Z.eqb_spec (Limit (File g (Name fileid))) 0) as [Heq|_]; [lia|].
    destruct (IH (File g (Name fileid)) (record (visitEvents false fileid) w) Hg')
      as (g' & Hrun & Hu).
    exists g'. by rewrite Hrun, record_record.
Qed.

(** C7.  With an unlimited budget the scan never stops early: in listing
    mode and in content mode alike it visits every candidate of the set it
    is given, in order, and the budget is still unlimited at the end.  In
    listing mode the candidates are fewer than the decrements that would
    wrap the budget around; in content mode [g.File] leaves an unlimited
    budget unlimited. *)
Theorem unlimited_budget_scans_all (onlyList : bool) (post : list uint32)
    (g : Grep Regexp) (w : world) :
  unlimited (Limit g) ->
  (onlyList = true -> min_int + Z.of_nat (length post) <= Limit g) ->
  (onlyList = false ->
   forall g' name, unlimited (Limit g') -> unlimited (Limit (File g' name))) ->
  exists g',
    searchLoop onlyList post g w =
    (Return g', record (concat (map (visitEvents onlyList) post)) w) ∧
    unlimited (Limit g').
Proof.
  intros Hg Hrange HFile. destruct onlyList.
  - destruct (list_nonpositive_scans_all post g w) as (g' & Hrun & Hg');
      [unfold unlimited in Hg; lia | by apply Hrange |].
    exists g'. split; [exact Hrun|]. unfold unlimited in *. lia.
  - by apply content_unlimited_scans_all; [apply HFile|].
Qed.

End Scan.

(** ** Setup: the pattern and the filters *)

Section Setup.
Context `{C : Collaborators}.

Lemma bind_return {A B} (m : M A) (k : A -> M B) (w w' : world) (a : A) :
  m w = (Return a, w') -> bind m k w = k a w'.
Proof. unfold bind. by intros ->. Qed.

Lemma bind_exit {A B} (m : M A) (k : A -> M B) (w w' : world) (code : Z) :
  m w = (Exit code, w') -> bind m k w = (Exit code, w').
Proof. unfold bind. by intros ->. Qed.

Lemma startProfile_cases (path : string) (w : world) :
  (exists es, startProfile path w = (Return tt, record es w) ∧
              Forall (fun e => searches e = false) es) ∨
  (exists err, startProfile path w = (Exit 1, record [Fatal err] w)).
Proof.
  unfold startProfile. destruct (String.eqb path "").
  - left. exists []. by rewrite record_nil.
  - destruct (Create path) as [err|].
    + right. by exists err.
    + left. exists [StartCPUProfile path]. split; [reflexivity|].
      by repeat constructor.
Qed.

Lemma compileOrDie_ok (pat : string) (re : Regexp) (w : world) :
  Compile pat = inl re -> compileOrDie pat w = (Return re, w).
Proof. unfold compileOrDie. by intros ->. Qed.

Lemma compileOrDie_fails (pat err : string) (w : world) :
  Compile pat = inr err -> compileOrDie pat w = (Exit 1, record [Fatal err] w).
Proof. unfold compileOrDie. by intros ->. Qed.

(** The compilation loop: either every expression compiles and the loop
    returns them compiled, in order, behind what it was given, or it stops
    on the first one that does not. *)
Lemma compileLoop_cases (raw : list string) (fres : list Regexp) (w : world) :
  (exists compiled,
     Forall2 (fun s re => Compile s = inl re) raw compiled ∧
     compileLoop raw fres w = (Return (fres ++ compiled), w)) ∨
  (exists good bad rest err,
     raw = good ++ bad :: rest ∧
     Forall (fun s => ¬ invalidExpr s) good ∧
     Compile bad = inr err ∧
     compileLoop raw fres w = (Exit 1, record [Fatal err] w)).
Proof.
  revert fres. induction raw as [|s raw IH]; intros fres.
  - left. exists []. split; [constructor|]. simpl. by rewrite app_nil_r.
  - simpl. destruct (Compile s) as [re|err] eqn:Hs.
    + rewrite (bind_return _ _ w w re) by by apply compileOrDie_ok.
      destruct (IH (fres ++ [re])) as [(compiled & Hall & Hrun)
                                      |(good & bad & rest & err & -> & Hgood & Hbad & Hrun)].
      * left. exists (re :: compiled). split; [by constructor|].
        by rewrite Hrun, <- app_assoc.
      * right. exists (s :: good), bad, rest, err.
        split; [reflexivity|]. split; [|split; [exact Hbad | exact Hrun]].
        constructor; [|done]. unfold invalidExpr. rewrite Hs. tauto.
    + right. exists [], s, raw, err.
      split; [reflexivity|]. split; [constructor|]. split; [done|].
      by apply bind_exit, compileOrDie_fails.
Qed.

Lemma compileFilters_cases (raw : list string) (w : world) :
  (exists compiled,
     Forall2 (fun s re => Compile s = inl re) raw compiled ∧
     compileFilters raw w = (Return compiled, w)) ∨
  (exists good bad rest err,
     raw = good ++ bad :: rest ∧
     Forall (fun s => ¬ invalidExpr s) good ∧
     Compile bad = inr err ∧
     compileFilters raw w = (Exit 1, record [Fatal err] w)).
Proof.
  unfold compileFilters. destruct raw as [|s raw].
  - left. exists []. split; [constructor | reflexivity].
  - change (0 <? length (s :: raw))%nat with true. cbv iota.
    apply (compileLoop_cases (s :: raw) [] w).
Qed.

Lemma compiled_not_invalid (raw : list string) (compiled : list Regexp) :
  Forall2 (fun s re => Compile s = inl re) raw compiled ->
  Forall (fun s => ¬ invalidExpr s) raw.
Proof.
  induction 1 as [|s re raw compiled Hs _ IH]; constructor; [|done].
  unfold invalidExpr. rewrite Hs. tauto.
Qed.

(** The two compilations in a row, as [Main] runs them: with an invalid
    expression in either sequence what follows is never reached. *)
Lemma compile_both_fails {A} (allow block : list string)
    (k : list Regexp -> list Regexp -> M A) (w : world) :
  Exists invalidExpr (allow ++ block) ->
  exists good bad rest err,
    allow ++ block = good ++ bad :: rest ∧
    Forall (fun s => ¬ invalidExpr s) good ∧
    Compile bad = inr err ∧
    (let* allowFres := compileFilters allow in
     let* blockFres := compileFilters block in
     k allowFres blockFres) w = (Exit 1, record [Fatal err] w).
Proof.
  intros Hinv.
  destruct (compileFilters_cases allow w)
    as [(ca & Hall & Hrun)|(good & bad & rest & err & -> & Hgood & Hbad & Hrun)].
  - rewrite (bind_return _ _ w w ca) by done.
    destruct (compileFilters_cases block w)
      as [(cb & Hallb & Hrunb)|(good & bad & rest & err & -> & Hgood & Hbad & Hrunb)].
    + apply compiled_not_invalid in Hall, Hallb.
      apply Exists_app in Hinv as [Hinv|Hinv];
        apply Exists_exists in Hinv as (s & Hs & Hbad).
      * by destruct (proj1 (Forall_forall _ _) Hall s Hs).
      * by destruct (proj1 (Forall_forall _ _) Hallb s Hs).
    + exists (allow ++ good), bad, rest, err.
      split; [by rewrite app_assoc|]. split.
      * apply Forall_app. split; [by eapply compiled_not_invalid | done].
      * split; [done|]. by apply bind_exit.
  - exists good, bad, (rest ++ block), err.
    split; [by rewrite <- app_assoc|]. split; [done|]. split; [done|].
    by apply bind_exit.
Qed.

End Setup.

(** ** [Main] as a whole *)

Section Whole.
Context `{C : Collaborators}.

Lemma Main_usage (fl : Flags) (w : world) :
  length (args fl) ≠ 1%nat -> Main fl w = (Exit 2, record [Usage] w).
Proof.
  unfold Main. destruct (args fl) as [|arg [|arg' rest]]; simpl; try done.
Qed.

Lemma queryIndex_run (verbose brute : bool) (re : Regexp) (w : world) :
  exists q,
    queryIndex verbose brute re w =
    (Return (PostingQuery q),
     record ((if verbose then [LogQuery (RegexpQuery (re_Syntax re))] else [])
             ++ PostingQueryCall q ::
             (if verbose then [LogPost (length (PostingQuery q))] else [])) w).
Proof.
  exists (if brute then QAll else RegexpQuery (re_Syntax re)).
  unfold queryIndex, bind. rewrite when_run.
  destruct brute; simpl; rewrite when_run, !record_record; reflexivity.
Qed.

Lemma deferred_run (path : string) (w : world) :
  deferred path w =
  (Return tt, record (if String.eqb path "" then [] else [StopCPUProfile]) w).
Proof.
  unfold deferred. rewrite when_run. by destruct (String.eqb path "").
Qed.

(** Past the compilation of the pattern and of the filters, [Main]
    returns. *)
Lemma Main_tail_returns (fl : Flags) (re : Regexp) (g : Grep Regexp)
    (allowFres blockFres : list Regexp) (w : world) :
  exists g' es,
    (let* post := queryIndex (verboseFlag fl) (bruteFlag fl) re in
     let* post := selectCandidates (verboseFlag fl) allowFres blockFres post in
     let* g := searchLoop (onlyListCandidates fl) post g in
     deferred (cpuProfile fl) >> ret g) w = (Return g', record es w).
Proof.
  destruct (queryIndex_run (verboseFlag fl) (bruteFlag fl) re w) as (q & Hq).
  rewrite (bind_return _ _ _ _ _ Hq).
  rewrite (bind_return _ _ _ _ _ (selectCandidates_run _ _ _ _ _)).
  cbv beta.
  match goal with
  | |- ex (fun _ => ex (fun _ => bind (searchLoop ?o ?p ?g0) _ ?w0 = _)) =>
      destruct (searchLoop_returns o p g0 w0) as (g' & n & Hs)
  end.
  rewrite (bind_return _ _ _ _ _ Hs).
  rewrite (bind_return _ _ _ _ _ (deferred_run _ _)).
  unfold ret. rewrite !record_record. by eexists _, _.
Qed.

(** The three ways a run of [Main] ends. *)
Lemma Main_outcome (fl : Flags) (w : world) :
  (length (args fl) ≠ 1%nat ∧ Main fl w = (Exit 2, record [Usage] w)) ∨
  (length (args fl) = 1%nat ∧
   exists es err, Main fl w = (Exit 1, record (es ++ [Fatal err]) w) ∧
                  Forall (fun e => searches e = false) es) ∨
  (length (args fl) = 1%nat ∧
   exists g es, Main fl w = (Return g, record es w)).
Proof.
  destruct (decide (length (args fl) = 1%nat)) as [Hlen|Hlen];
    [right | left; auto using Main_usage].
  unfold Main. destruct (args fl) as [|arg [|arg' rest]]; try done.
  destruct (startProfile_cases (cpuProfile fl) w) as [(es0 & Hp & Hq0)|(err & Hp)].
  2:{ left. split; [done|]. exists [], err. split; [|constructor].
      by apply bind_exit. }
  rewrite (bind_return _ _ _ _ _ Hp).
  destruct (Compile (effectivePattern (iFlag fl) arg)) as [re|err] eqn:Hre.
  2:{ left. split; [done|]. exists es0, err. split; [|done].
      rewrite <- record_record. by apply bind_exit, compileOrDie_fails. }
  rewrite (bind_return _ _ _ _ _ (compileOrDie_ok _ _ _ Hre)).
  destruct (compileFilters_cases (allowFiles fl) (record es0 w))
    as [(ca & _ & Ha)|(? & ? & ? & err & _ & _ & _ & Ha)].
  2:{ left. split; [done|]. exists es0, err. split; [|done].
      rewrite <- record_record. by apply bind_exit. }
  rewrite (bind_return _ _ _ _ _ Ha).
  destruct (compileFilters_cases (blockFiles fl) (record es0 w))
    as [(cb & _ & Hb)|(? & ? & ? & err & _ & _ & _ & Hb)].
  2:{ left. split; [done|]. exists es0, err. split; [|done].
      rewrite <- record_record. by apply bind_exit. }
  rewrite (bind_return _ _ _ _ _ Hb).
  right. split; [done|].
  destruct (Main_tail_returns fl re (mkGrep (Some re) (limit fl) false) ca cb
              (record es0 w)) as (g' & es & Hrun).
  exists g', (es0 ++ es). simpl in *. by rewrite Hrun, record_record.
Qed.

(** A pattern that does not compile: the run ends in [log.Fatal], right
    after the profile has been started. *)
Lemma Main_pattern_fatal (fl : Flags) (w w1 : world) (arg err : string) :
  args fl = [arg] ->
  Compile (effectivePattern (iFlag fl) arg) = inr err ->
  startProfile (cpuProfile fl) w = (Return tt, w1) ->
  Main fl w = (Exit 1, record [Fatal err] w1).
Proof.
  intros Hargs Herr Hp. unfold Main. rewrite Hargs.
  rewrite (bind_return _ _ _ _ _ Hp).
  by apply bind_exit, compileOrDie_fails.
Qed.

Lemma Main_pattern_fatal_quiet (fl : Flags) (w : world) (arg err : string) :
  args fl = [arg] ->
  Compile (effectivePattern (iFlag fl) arg) = inr err ->
  exists es, Main fl w = (Exit 1, record es w) ∧
             Forall (fun e => searches e = false) es.
Proof.
  intros Hargs Herr.
  destruct (startProfile_cases (cpuProfile fl) w) as [(es0 & Hp & Hq0)|(e & Hp)].
  - exists (es0 ++ [Fatal err]).
    rewrite (Main_pattern_fatal fl w _ arg err Hargs Herr Hp), record_record.
    split; [reflexivity|]. apply Forall_app. split; [done|]. by repeat constructor.
  - exists [Fatal e]. split; [|by repeat constructor].
    unfold Main. rewrite Hargs. by apply bind_exit.
Qed.

(** What is searched for is the effective pattern: [Main] only returns
    after it has compiled. *)
Lemma Main_returns_compiled (fl : Flags) (w w' : world) (g : Grep Regexp) :
  Main fl w = (Return g, w') ->
  exists arg re, args fl = [arg] ∧
                 Compile (effectivePattern (iFlag fl) arg) = inl re.
Proof.
  intros Hrun.
  destruct (args fl) as [|arg [|arg' rest]] eqn:Hargs;
    try (rewrite Main_usage in Hrun by (rewrite Hargs; simpl; lia); discriminate).
  exists arg. destruct (Compile (effectivePattern (iFlag fl) arg)) as [re|err] eqn:Hre;
    [by exists re|].
  destruct (Main_pattern_fatal_quiet fl w arg err Hargs Hre) as (es & Hfatal & _).
  rewrite Hfatal in Hrun. discriminate.
Qed.

(** C8.  The expression that is compiled is the raw pattern behind the
    multiline marker, behind the case-insensitivity marker exactly when
    [-i] is set; when it does not compile the run ends in [log.Fatal] with
    status 1, with no event of the search in its trace, and the error
    reported is the one of the pattern when the profile could be started. *)
Theorem pattern_wrapped_and_fatal (fl : Flags) (w : world) (arg err : string) :
  args fl = [arg] ->
  Compile (effectivePattern (iFlag fl) arg) = inr err ->
  effectivePattern (iFlag fl) arg =
    (if iFlag fl then "(?i)" else "") +:+ "(?m)" +:+ arg ∧
  (exists es, Main fl w = (Exit 1, record es w) ∧
              Forall (fun e => searches e = false) es) ∧
  (forall w1, startProfile (cpuProfile fl) w = (Return tt, w1) ->
              Main fl w = (Exit 1, record [Fatal err] w1)).
Proof.
  intros Hargs Herr. split; [by destruct (iFlag fl)|].
  split; [by apply (Main_pattern_fatal_quiet fl w arg err)|].
  intros w1. by apply (Main_pattern_fatal fl w w1 arg err).
Qed.

(** C9.  With an invalid expression among the allow or the block filters
    the run never returns from [Main]: it exits with a status other than
    zero and no event of the search is in its trace, neither the index
    query nor a name resolved for filtering.  When the setup gets as far as
    the filters (one argument, the profile started, the pattern compiled),
    the run ends in [log.Fatal] with the error of the first invalid
    expression, the allow sequence being compiled before the block
    sequence. *)
Theorem invalid_filter_is_fatal (fl : Flags) (w : world) :
  Exists invalidExpr (allowFiles fl ++ blockFiles fl) ->
  (exists code es, Main fl w = (Exit code, record es w) ∧ code ≠ 0 ∧
                   Forall (fun e => searches e = false) es) ∧
  (forall arg re w1,
     args fl = [arg] ->
     startProfile (cpuProfile fl) w = (Return tt, w1) ->
     Compile (effectivePattern (iFlag fl) arg) = inl re ->
     exists good bad rest err,
       allowFiles fl ++ blockFiles fl = good ++ bad :: rest ∧
       Forall (fun s => ¬ invalidExpr s) good ∧
       Compile bad = inr err ∧
       Main fl w = (Exit 1, record [Fatal err] w1)).
Proof.
  intros Hinv.
  assert (Hafter : forall arg re w1,
     args fl = [arg] ->
     startProfile (cpuProfile fl) w = (Return tt, w1) ->
     Compile (effectivePattern (iFlag fl) arg) = inl re ->
     exists good bad rest err,
       allowFiles fl ++ blockFiles fl = good ++ bad :: rest ∧
       Forall (fun s => ¬ invalidExpr s) good ∧
       Compile bad = inr err ∧
       Main fl w = (Exit 1, record [Fatal err] w1)).
  { intros arg re w1 Hargs Hp Hre. unfold Main. rewrite Hargs.
    rewrite (bind_return _ _ _ _ _ Hp).
    rewrite (bind_return _ _ _ _ _ (compileOrDie_ok _ _ _ Hre)).
    by apply compile_both_fails. }
  split; [|exact Hafter].
  destruct (Main_outcome fl w)
    as [(_ & Hrun)|[(_ & es & err & Hrun & Hq)|(Hlen & g & es & Hrun)]].
  - exists 2, [Usage]. split; [done|]. split; [lia | by repeat constructor].
  - exists 1, (es ++ [Fatal err]). split; [done|]. split; [lia|].
    apply Forall_app. split; [done | by repeat constructor].
  - destruct (Main_returns_compiled fl _ _ _ Hrun) as (arg & re & Hargs & Hre).
    destruct (startProfile_cases (cpuProfile fl) w) as [(es0 & Hp & _)|(e & Hp)].
    + destruct (Hafter arg re _ Hargs Hp Hre) as (? & ? & ? & ? & _ & _ & _ & Hfatal).
      rewrite Hfatal in Hrun. discriminate.
    + unfold Main in Hrun. rewrite Hargs in Hrun.
      rewrite (bind_exit _ _ _ _ _ Hp) in Hrun. discriminate.
Qed.

(** C1, as the code has it.  The exit status is 2 on a usage error (a
    number of positional arguments other than one), and 0 for every run
    that comes back from [Main], whether [g.Match] is set at the end or
    not: with at least one match and with none alike. *)
Theorem exit_status_ignores_match (fl : Flags) :
  (length (args fl) ≠ 1%nat -> (main fl).1 = 2) ∧
  (forall g w, Main fl initial = (Return g, w) ->
               main fl = (0, w) ∧
               (main fl).1 = (if Match g then 0 else 0)).
Proof.
  split.
  - intros Hlen. unfold main, bind. by rewrite (Main_usage fl initial Hlen).
  - intros g w Hrun. unfold main, bind. rewrite Hrun. simpl.
    split; [reflexivity | by destruct (Match g)].
Qed.

End Whole.

(** ** The earlier revision and the exit status *)

Section OldExit.
Context `{C : Collaborators}.

(** When the earlier [Main] returns, the package-level [matches] holds
    [g.Match]. *)
Lemma old_Main_sets_matches (fl : Old.Flags) (w0 w : world) (g : Grep Regexp) :
  Old.Main fl w0 = (Return g, w) -> matches w = Match g.
Proof.
  unfold Old.Main. destruct (Old.args fl) as [|arg [|arg' rest]]; try done.
  unfold bind. intros Hrun.
  repeat match type of Hrun with
         | context [match ?m ?w1 with _ => _ end] =>
             lazymatch m with
             | set_matches _ => fail
             | deferred _ => fail
             | _ => destruct (m w1) as [[?|?] ?]; try discriminate
             end
         end.
  simpl in Hrun. rewrite deferred_run in Hrun.
  by injection Hrun as <- <-.
Qed.

(** The earlier revision does what the spec says of the exit status: a run
    that comes back from [Main] exits with 0 when [g.Match] is set and with
    1 when it is not. *)
Lemma old_exit_status_follows_match (fl : Old.Flags) (w : world) (g : Grep Regexp) :
  Old.Main fl initial = (Return g, w) ->
  (Old.main fl).1 = if Match g then 0 else 1.
Proof.
  intros Hrun. pose proof (old_Main_sets_matches _ _ _ _ Hrun) as Hm.
  unfold Old.main, bind, Old.exitStatus. rewrite Hrun, Hm.
  by destruct (Match g).
Qed.

End OldExit.

(** ** Further properties: flags, filters, query *)

Section More.
Context `{C : Collaborators}.

(** Repeated occurrences of a flag accumulate behind what was there, in
    the order of the command line, and [Set] never reports an error. *)
Theorem setEach_appends (i : arrayFlags) (values : list string) :
  setEach i values = (i ++ values, None).
Proof.
  revert i. induction values as [|value rest IH]; intros i; simpl.
  - by rewrite app_nil_r.
  - by rewrite IH, <- app_assoc.
Qed.

Lemma compileLoop_ok (raw : list string) (compiled fres : list Regexp) (w : world) :
  Forall2 (fun s re => Compile s = inl re) raw compiled ->
  compileLoop raw fres w = (Return (fres ++ compiled), w).
Proof.
  intros Hall. revert fres.
  induction Hall as [|s re raw compiled Hs _ IH]; intros fres; simpl.
  - by rewrite app_nil_r.
  - rewrite (bind_return _ _ _ _ _ (compileOrDie_ok _ _ _ Hs)).
    by rewrite IH, <- app_assoc.
Qed.

Lemma compileFilters_ok (raw : list string) (compiled : list Regexp) (w : world) :
  Forall2 (fun s re => Compile s = inl re) raw compiled ->
  compileFilters raw w = (Return compiled, w).
Proof.
  intros Hall. unfold compileFilters. destruct Hall as [|s re raw compiled Hs Hall].
  - reflexivity.
  - change (0 <? length (s :: raw))%nat with true. cbv iota.
    apply (compileLoop_ok (s :: raw) (re :: compiled) []). by constructor.
Qed.

Lemma valid_compiles (raw : list string) :
  Forall (fun s => ¬ invalidExpr s) raw ->
  exists compiled, Forall2 (fun s re => Compile s = inl re) raw compiled.
Proof.
  induction 1 as [|s raw Hs _ (compiled & IH)].
  - exists []. constructor.
  - unfold invalidExpr in Hs. destruct (Compile s) as [re|err] eqn:Hc; [|tauto].
    exists (re :: compiled). by constructor.
Qed.

(** When every raw expression compiles, the compiled filters are the
    compilations of the raw ones, one for one and in the same order, and
    nothing is written to the trace. *)
Theorem compileFilters_all_valid (raw : list string) (w : world) :
  Forall (fun s => ¬ invalidExpr s) raw ->
  exists compiled,
    compileFilters raw w = (Return compiled, w) ∧
    length compiled = length raw ∧
    forall n s, raw !! n = Some s ->
      exists re, compiled !! n = Some re ∧ Compile s = inl re.
Proof.
  intros Hvalid. destruct (valid_compiles raw Hvalid) as (compiled & Hall).
  exists compiled. split; [by apply compileFilters_ok|].
  split; [symmetry; by eapply Forall2_length|].
  intros n s Hn.
  destruct (Forall2_lookup_l _ _ _ _ _ Hall Hn) as (re & Hre & Hs).
  by exists re.
Qed.

Lemma queryIndex_explicit (verbose brute : bool) (re : Regexp) (w : world) :
  queryIndex verbose brute re w =
  (Return (PostingQuery (queryOf brute re)),
   record (queryEvents verbose brute re) w).
Proof.
  unfold queryIndex, queryEvents, queryOf, bind. rewrite when_run.
  destruct brute; simpl; rewrite when_run, !record_record; reflexivity.
Qed.


Lemma accepted_iff (allowFres blockFres : list Regexp) (fileid : uint32) :
  accepted allowFres blockFres fileid <->
  Forall (matchesName (Name fileid)) allowFres ∧
  ¬ Exists (matchesName (Name fileid)) blockFres.
Proof. unfold accepted. apply keep_true. Qed.

(** The order in which the expressions are given does not matter, in
    either sequence: the filtering step does the same. *)
Theorem filter_order_irrelevant (verbose : bool)
    (allowFres allowFres' blockFres blockFres' : list Regexp)
    (post : list uint32) (w : world) :
  allowFres ≡ₚ allowFres' -> blockFres ≡ₚ blockFres' ->
  selectCandidates verbose allowFres blockFres post w =
  selectCandidates verbose allowFres' blockFres' post w.
Proof.
  intros Ha Hb. rewrite !selectCandidates_run.
  assert (Hsame : filter (accepted allowFres blockFres) post =
                  filter (accepted allowFres' blockFres') post).
  { apply list_filter_iff. intros x. rewrite !accepted_iff.
    by rewrite Ha, Hb. }
  rewrite Hsame. f_equal. f_equal.
  apply Permutation_length in Ha, Hb.
  destruct allowFres, allowFres', blockFres, blockFres';
    simpl in Ha, Hb; try discriminate; reflexivity.
Qed.

(** More filters never let more candidates through: with expressions added
    to either sequence, the filtered set is a subsequence of what it was. *)
Theorem more_filters_fewer_candidates (verbose : bool)
    (allowFres moreAllow blockFres moreBlock : list Regexp)
    (post : list uint32) (w : world) :
  exists before after w1 w2,
    selectCandidates verbose allowFres blockFres post w = (Return before, w1) ∧
    selectCandidates verbose (allowFres ++ moreAllow) (blockFres ++ moreBlock)
      post w = (Return after, w2) ∧
    sublist after before.
Proof.
  eexists _, _, _, _. rewrite !selectCandidates_run.
  split; [reflexivity|]. split; [reflexivity|].
  rewrite <- (list_filter_filter_l
                (accepted (allowFres ++ moreAllow) (blockFres ++ moreBlock))
                (accepted allowFres blockFres)).
  - apply sublist_filter.
  - intros x. rewrite !accepted_iff, Forall_app, Exists_app. tauto.
Qed.

(** Filtering what has been filtered changes nothing. *)
Theorem filtering_idempotent (verbose : bool)
    (allowFres blockFres : list Regexp) (post : list uint32) (w : world) :
  exists filtered w1 w2,
    selectCandidates verbose allowFres blockFres post w = (Return filtered, w1) ∧
    selectCandidates verbose allowFres blockFres filtered w1 = (Return filtered, w2).
Proof.
  eexists _, _, _. rewrite !selectCandidates_run.
  split; [reflexivity|].
  rewrite list_filter_filter_l by done. reflexivity.
Qed.

End More.

(** ** Further properties: the scan *)

Section MoreScan.
Context `{C : Collaborators}.

Lemma scanEvents_nil (onlyList : bool) : scanEvents onlyList [] = [].
Proof. reflexivity. Qed.

Lemma scanEvents_cons (onlyList : bool) (fileid : uint32) (l : list uint32) :
  scanEvents onlyList (fileid :: l) =
  visitEvents onlyList fileid ++ scanEvents onlyList l.
Proof. reflexivity. Qed.

(** The scan does not look at the state or the trace it starts from: it
    visits a prefix of the candidate set, the whole of it unless the budget
    is zero after the last candidate visited, and in listing mode it leaves
    [g.Match] and [g.Regexp] alone. *)
Lemma searchLoop_uniform (onlyList : bool) (post : list uint32) (g : Grep Regexp) :
  exists g' n,
    (forall w, searchLoop onlyList post g w =
               (Return g', record (scanEvents onlyList (take n post)) w)) ∧
    (n <= length post)%nat ∧
    ((n < length post)%nat -> Limit g' = 0) ∧
    (onlyList = true -> Match g' = Match g ∧ g_Regexp g' = g_Regexp g).
Proof.
  revert g. induction post as [|fileid rest IH]; intros g.
  - exists g, 0%nat. split; [|split; [done|split; [simpl; lia | done]]].
    intros w. rewrite take_nil, scanEvents_nil, record_nil. reflexivity.
  - destruct (Z.eqb_spec (Limit (visited onlyList fileid g)) 0) as [Hz|Hnz].
    + exists (visited onlyList fileid g), 1%nat.
      split; [|split; [simpl; lia | split; [done|]]].
      * intros w. rewrite searchLoop_cons. cbv zeta.
        apply Z.eqb_eq in Hz. rewrite Hz.
        change (take 1 (fileid :: rest)) with (fileid :: take 0 rest).
        by rewrite take_0, scanEvents_cons, scanEvents_nil, app_nil_r.
      * by intros ->.
    + destruct (IH (visited onlyList fileid g)) as (g' & n & Hrun & Hn & Hstop & Hlist).
      exists g', (S n). split; [|split; [simpl; lia | split]].
      * intros w. rewrite searchLoop_cons. cbv zeta.
        apply Z.eqb_neq in Hnz. rewrite Hnz, Hrun, record_record.
        reflexivity.
      * simpl. intros Hlt. apply Hstop. lia.
      * intros ->. destruct (Hlist eq_refl) as [-> ->]. done.
Qed.

(** Listing with a budget [n] above zero prints the first [n] names of the
    candidate set, in order, or all of them when there are fewer; the budget
    ends that many lower; no file is scanned; [g.Match] and [g.Regexp] are
    as they were. *)
Theorem listing_prints_budget_many (post : list uint32) (g : Grep Regexp) (w : world) :
  0 < Limit g <= max_int ->
  exists g',
    searchLoop true post g w =
    (Return g',
     record (scanEvents true (take (Z.to_nat (Limit g)) post)) w) ∧
    Limit g' = Limit g - Z.of_nat (length (take (Z.to_nat (Limit g)) post)) ∧
    Match g' = Match g ∧ g_Regexp g' = g_Regexp g.
Proof.
  revert g w. induction post as [|fileid rest IH]; intros g w Hg.
  - exists g. rewrite take_nil, scanEvents_nil, record_nil.
    split; [reflexivity|]. split; [simpl; lia | done].
  - assert (Hdec : Limit (decrement g) = Limit g - 1)
      by (apply decrement_Limit; unfold min_int; lia).
    replace (Z.to_nat (Limit g)) with (S (Z.to_nat (Limit g - 1))) by lia.
    change (take (S (Z.to_nat (Limit g - 1))) (fileid :: rest))
      with (fileid :: take (Z.to_nat (Limit g - 1)) rest).
    rewrite scanEvents_cons, searchLoop_cons. cbv zeta. unfold visited.
    rewrite Hdec.
    destruct (Z.eqb_spec (Limit g - 1) 0) as [Hz|Hnz].
    + exists (decrement g). rewrite Hz. change (Z.to_nat 0) with 0%nat.
      rewrite take_0, scanEvents_nil, app_nil_r.
      split; [reflexivity|]. split; [simpl length; lia | done].
    + destruct (IH (decrement g) (record (visitEvents true fileid) w))
        as (g' & Hrun & Hlim & Hm & Hr); [lia|].
      rewrite Hdec in Hrun, Hlim.
      exists g'. rewrite Hrun, record_record.
      split; [reflexivity|]. split; [simpl length; lia | done].
Qed.

(** A budget that is zero before the scan starts is not an exhausted one:
    listing prints every name and ends [length post] below zero; a content
    search goes on past the first candidate exactly when [g.File] leaves
    the budget off zero. *)
Theorem zero_budget_at_start (fileid : uint32) (rest : list uint32)
    (g : Grep Regexp) (w : world) :
  Limit g = 0 ->
  min_int + Z.of_nat (length (fileid :: rest)) <= 0 ->
  (exists g',
     searchLoop true (fileid :: rest) g w =
     (Return g', record (scanEvents true (fileid :: rest)) w) ∧
     Limit g' = - Z.of_nat (length (fileid :: rest))) ∧
  (Limit (File g (Name fileid)) = 0 ->
   searchLoop false (fileid :: rest) g w =
   (Return (File g (Name fileid)), record (visitEvents false fileid) w)) ∧
  (Limit (File g (Name fileid)) ≠ 0 ->
   searchLoop false (fileid :: rest) g w =
   searchLoop false rest (File g (Name fileid))
     (record (visitEvents false fileid) w)).
Proof.
  intros Hg Hrange. split; [|split].
  - destruct (list_nonpositive_scans_all (fileid :: rest) g w) as (g' & Hrun & Hlim);
      [lia | lia |].
    exists g'. split; [exact Hrun | lia].
  - intros Hz. rewrite searchLoop_cons. cbv zeta. unfold visited.
    by rewrite Hz.
  - intros Hnz. rewrite searchLoop_cons. cbv zeta. unfold visited.
    apply Z.eqb_neq in Hnz. by rewrite Hnz.
Qed.

End MoreScan.

(** ** Further properties: a whole run *)

Section MoreWhole.
Context `{C : Collaborators}.

#[local] Instance invalidExpr_dec (raw : string) : Decision (invalidExpr raw).
Proof. unfold invalidExpr. destruct (Compile raw); apply _. Defined.

Lemma startProfile_ok (path : string) (w : world) :
  path = "" ∨ Create path = None ->
  startProfile path w = (Return tt, record (profileStartEvents path) w).
Proof.
  unfold startProfile, profileStartEvents. intros Hok.
  destruct (String.eqb_spec path "") as [->|Hne].
  - by rewrite record_nil.
  - destruct Hok as [Hp | Hp]; [done | by rewrite Hp].
Qed.

Lemma startProfile_fails (path err : string) (w : world) :
  path ≠ "" -> Create path = Some err ->
  startProfile path w = (Exit 1, record [Fatal err] w).
Proof.
  unfold startProfile. intros Hne ->.
  by destruct (String.eqb_spec path "").
Qed.

(** A run whose setup succeeds, end to end. *)
Lemma Main_run (fl : Flags) (w : world) (arg : string) (re : Regexp)
    (allowFres blockFres : list Regexp) (g' : Grep Regexp) (n : nat) :
  let post := PostingQuery (queryOf (bruteFlag fl) re) in
  let filtered := filter (accepted allowFres blockFres) post in
  args fl = [arg] ->
  cpuProfile fl = "" ∨ Create (cpuProfile fl) = None ->
  Compile (effectivePattern (iFlag fl) arg) = inl re ->
  Forall2 (fun s fre => Compile s = inl fre) (allowFiles fl) allowFres ->
  Forall2 (fun s fre => Compile s = inl fre) (blockFiles fl) blockFres ->
  (forall w0, searchLoop (onlyListCandidates fl) filtered
                (mkGrep (Some re) (limit fl) false) w0 =
              (Return g', record (scanEvents (onlyListCandidates fl)
                                    (take n filtered)) w0)) ->
  Main fl w =
  (Return g',
   record (profileStartEvents (cpuProfile fl) ++
           queryEvents (verboseFlag fl) (bruteFlag fl) re ++
           filterEvents (verboseFlag fl) allowFres blockFres post ++
           scanEvents (onlyListCandidates fl) (take n filtered) ++
           profileStopEvents (cpuProfile fl)) w).
Proof.
  intros post filtered Hargs Hprof Hre Hallow Hblock Hscan.
  unfold Main. rewrite Hargs.
  rewrite (bind_return _ _ _ _ _ (startProfile_ok _ _ Hprof)).
  rewrite (bind_return _ _ _ _ _ (compileOrDie_ok _ _ _ Hre)).
  rewrite (bind_return _ _ _ _ _ (compileFilters_ok _ _ _ Hallow)).
  rewrite (bind_return _ _ _ _ _ (compileFilters_ok _ _ _ Hblock)).
  rewrite (bind_return _ _ _ _ _ (queryIndex_explicit _ _ _ _)).
  rewrite (bind_return _ _ _ _ _ (selectCandidates_run _ _ _ _ _)).
  fold post. fold filtered. simpl Limit. simpl Match.
  rewrite (bind_return _ _ _ _ _ (Hscan _)).
  rewrite (bind_return _ _ _ _ _ (deferred_run _ _)).
  unfold ret, profileStopEvents, filterEvents. fold filtered.
  by rewrite !record_record.
Qed.

(** A setup that fails in the filters, the pattern being fine. *)
Lemma Main_filter_fatal (fl : Flags) (w : world) (arg : string) (re : Regexp) :
  args fl = [arg] ->
  cpuProfile fl = "" ∨ Create (cpuProfile fl) = None ->
  Compile (effectivePattern (iFlag fl) arg) = inl re ->
  Exists invalidExpr (allowFiles fl ++ blockFiles fl) ->
  exists err,
    Main fl w =
    (Exit 1, record (profileStartEvents (cpuProfile fl) ++ [Fatal err]) w).
Proof.
  intros Hargs Hprof Hre Hinv. unfold Main. rewrite Hargs.
  rewrite (bind_return _ _ _ _ _ (startProfile_ok _ _ Hprof)).
  rewrite (bind_return _ _ _ _ _ (compileOrDie_ok _ _ _ Hre)).
  match goal with
  | |- ex (fun _ => bind _ (fun a => bind _ (fun b => @?k a b)) ?w0 = _) =>
      destruct (compile_both_fails (allowFiles fl) (blockFiles fl) k w0 Hinv)
        as (_ & _ & _ & err & _ & _ & _ & Hrun)
  end.
  exists err. cbv beta in Hrun. by rewrite Hrun, record_record.
Qed.

(** Every way a run of [Main] can go, with its trace. *)
Lemma Main_cases (fl : Flags) (w : world) :
  (length (args fl) ≠ 1%nat ∧ Main fl w = (Exit 2, record [Usage] w)) ∨
  (exists err,
     length (args fl) = 1%nat ∧ cpuProfile fl ≠ "" ∧
     Main fl w = (Exit 1, record [Fatal err] w)) ∨
  (exists err,
     length (args fl) = 1%nat ∧
     Main fl w =
     (Exit 1, record (profileStartEvents (cpuProfile fl) ++ [Fatal err]) w)) ∨
  (exists arg re allowFres blockFres g' n,
     let post := PostingQuery (queryOf (bruteFlag fl) re) in
     let filtered := filter (accepted allowFres blockFres) post in
     args fl = [arg] ∧
     Compile (effectivePattern (iFlag fl) arg) = inl re ∧
     Forall2 (fun s fre => Compile s = inl fre) (allowFiles fl) allowFres ∧
     Forall2 (fun s fre => Compile s = inl fre) (blockFiles fl) blockFres ∧
     (n <= length filtered)%nat ∧
     ((n < length filtered)%nat -> Limit g' = 0) ∧
     (onlyListCandidates fl = true -> Match g' = false ∧ g_Regexp g' = Some re) ∧
     Main fl w =
     (Return g',
      record (profileStartEvents (cpuProfile fl) ++
              queryEvents (verboseFlag fl) (bruteFlag fl) re ++
              filterEvents (verboseFlag fl) allowFres blockFres post ++
              scanEvents (onlyListCandidates fl) (take n filtered) ++
              profileStopEvents (cpuProfile fl)) w)).
Proof.
  destruct (decide (length (args fl) = 1%nat)) as [Hlen|Hlen];
    [right | left; auto using Main_usage].
  destruct (args fl) as [|arg [|arg' rest]] eqn:Hargs; try done.
  destruct (decide (cpuProfile fl = "")) as [Hp|Hp];
    [|destruct (Create (cpuProfile fl)) as [perr|] eqn:Hcreate].
  2:{ left. exists perr. split; [done|]. split; [done|].
      unfold Main. rewrite Hargs.
      by apply bind_exit, startProfile_fails. }
  all: right.
  all: assert (Hprof : cpuProfile fl = "" ∨ Create (cpuProfile fl) = None) by auto.
  all: destruct (Compile (effectivePattern (iFlag fl) arg)) as [re|err] eqn:Hre;
    [|left; exists err; split; [done|]; rewrite <- record_record;
      by apply (Main_pattern_fatal fl w _ arg err), startProfile_ok].
  all: destruct (decide (Exists invalidExpr (allowFiles fl ++ blockFiles fl)))
         as [Hinv|Hvalid];
    [left; destruct (Main_filter_fatal fl w arg re Hargs Hprof Hre Hinv) as (err & Hrun);
     by exists err|].
  all: apply not_Exists_Forall in Hvalid; [|intros s; apply _].
  all: apply Forall_app in Hvalid as [Ha Hb].
  all: destruct (valid_compiles _ Ha) as (ca & Hca).
  all: destruct (valid_compiles _ Hb) as (cb & Hcb).
  all: destruct (searchLoop_uniform (onlyListCandidates fl)
                   (filter (accepted ca cb)
                      (PostingQuery (queryOf (bruteFlag fl) re)))
                   (mkGrep (Some re) (limit fl) false))
         as (g' & n & Hscan & Hn & Hstop & Hlist).
  all: right; exists arg, re, ca, cb, g', n; cbv zeta.
  all: split; [done|]; split; [done|]; split; [done|]; split; [done|].
  all: split; [done|]; split; [done|]; split; [done|].
  all: by apply (Main_run fl w arg re ca cb g' n).
Qed.

Lemma Forall_queryEvents (P : event -> Prop) (verbose brute : bool) (re : Regexp) :
  (forall q, P (LogQuery q)) -> (forall n, P (LogPost n)) ->
  (forall q, P (PostingQueryCall q)) ->
  Forall P (queryEvents verbose brute re).
Proof.
  intros H1 H2 H3. unfold queryEvents. destruct verbose; repeat constructor; auto.
Qed.

Lemma Forall_filterEvents (P : event -> Prop) (verbose : bool)
    (allowFres blockFres : list Regexp) (post : list uint32) :
  (forall fileid, P (NameCall fileid)) -> (forall n, P (LogFiltered n)) ->
  Forall P (filterEvents verbose allowFres blockFres post).
Proof.
  intros H1 H2.
  assert (Hall : Forall P (map NameCall post ++
            (if verbose
             then [LogFiltered (length (filter (accepted allowFres blockFres) post))]
             else []))).
  { apply Forall_app. split.
    - apply Forall_fmap, Forall_forall. intros x _. apply H1.
    - destruct verbose; repeat constructor; auto. }
  unfold filterEvents. destruct allowFres, blockFres; try exact Hall. constructor.
Qed.

Lemma Forall_scanEvents (P : event -> Prop) (onlyList : bool) (seen : list uint32) :
  (forall fileid, P (NameCall fileid)) ->
  (forall name, P (if onlyList then Print name else FileCall name)) ->
  Forall P (scanEvents onlyList seen).
Proof.
  intros H1 H2. induction seen as [|fileid seen IH]; [constructor|].
  rewrite scanEvents_cons. apply Forall_app. split; [|exact IH].
  unfold visitEvents. repeat constructor; auto.
Qed.

(** A run whose setup succeeds visits accepted candidates only: what is
    printed or scanned is, in order, a prefix of the answer of the index
    filtered by the compiled expressions, the whole of it unless the budget
    is zero at the end; and the trace is that of the blocks of [Main] one
    after the other. *)
Theorem successful_run_visits_accepted (fl : Flags) (w : world)
    (arg : string) (re : Regexp) :
  args fl = [arg] ->
  cpuProfile fl = "" ∨ Create (cpuProfile fl) = None ->
  Compile (effectivePattern (iFlag fl) arg) = inl re ->
  Forall (fun s => ¬ invalidExpr s) (allowFiles fl ++ blockFiles fl) ->
  exists allowFres blockFres g' n,
    let post := PostingQuery (queryOf (bruteFlag fl) re) in
    let filtered := filter (accepted allowFres blockFres) post in
    Forall2 (fun s fre => Compile s = inl fre) (allowFiles fl) allowFres ∧
    Forall2 (fun s fre => Compile s = inl fre) (blockFiles fl) blockFres ∧
    Main fl w =
    (Return g',
     record (profileStartEvents (cpuProfile fl) ++
             queryEvents (verboseFlag fl) (bruteFlag fl) re ++
             filterEvents (verboseFlag fl) allowFres blockFres post ++
             scanEvents (onlyListCandidates fl) (take n filtered) ++
             profileStopEvents (cpuProfile fl)) w) ∧
    (n <= length filtered)%nat ∧
    ((n < length filtered)%nat -> Limit g' = 0) ∧
    forall fileid, fileid ∈ take n filtered ->
      fileid ∈ post ∧
      Forall (matchesName (Name fileid)) allowFres ∧
      ¬ Exists (matchesName (Name fileid)) blockFres.
Proof.
  intros Hargs Hprof Hre Hvalid.
  apply Forall_app in Hvalid as [Ha Hb].
  destruct (valid_compiles _ Ha) as (ca & Hca).
  destruct (valid_compiles _ Hb) as (cb & Hcb).
  destruct (searchLoop_uniform (onlyListCandidates fl)
              (filter (accepted ca cb)
                 (PostingQuery (queryOf (bruteFlag fl) re)))
              (mkGrep (Some re) (limit fl) false))
    as (g' & n & Hscan & Hn & Hstop & _).
  exists ca, cb, g', n. cbv zeta.
  split; [done|]. split; [done|].
  split; [by apply (Main_run fl w arg re ca cb g' n)|].
  split; [done|]. split; [done|].
  intros fileid Hin.
  apply (subseteq_take n) in Hin.
  apply list_elem_of_filter in Hin as [Hacc Hin].
  apply accepted_iff in Hacc. tauto.
Qed.

(** The profile is stopped by a run that returns from [Main] and by no
    other: a run that returns has started it first and stopped it last (or
    done neither, without [--cpuprofile]); a run that exits, on a usage
    error or in [log.Fatal], never stops it, started or not. *)
Theorem profile_stopped_only_on_return (fl : Flags) (w : world) :
  exists r es,
    Main fl w = (r, record es w) ∧
    match r with
    | Return _ =>
        exists mid,
          es = profileStartEvents (cpuProfile fl) ++ mid ++
               profileStopEvents (cpuProfile fl) ∧
          Forall (fun e => isProfile e = false) mid
    | Exit _ => StopCPUProfile ∉ es
    end.
Proof.
  destruct (Main_cases fl w)
    as [(_ & Hrun)|[(err & _ & _ & Hrun)|[(err & _ & Hrun)
       |(arg & re & ca & cb & g' & n & _ & _ & _ & _ & _ & _ & _ & Hrun)]]];
    eexists _, _; (split; [exact Hrun|]).
  - by intros [=]%list_elem_of_singleton.
  - by intros [=]%list_elem_of_singleton.
  - intros [Hin|[=]%list_elem_of_singleton]%elem_of_app.
    unfold profileStartEvents in Hin. destruct (String.eqb _ _).
    + by apply elem_of_nil in Hin.
    + by apply list_elem_of_singleton in Hin.
  - exists (queryEvents (verboseFlag fl) (bruteFlag fl) re ++
            filterEvents (verboseFlag fl) ca cb
              (PostingQuery (queryOf (bruteFlag fl) re)) ++
            scanEvents (onlyListCandidates fl)
              (take n (filter (accepted ca cb)
                         (PostingQuery (queryOf (bruteFlag fl) re))))).
    split; [by rewrite <- !app_assoc|].
    apply Forall_app_2; [|apply Forall_app_2].
    + by apply Forall_queryEvents.
    + by apply Forall_filterEvents.
    + apply Forall_scanEvents; [done|]. intros name. by destruct (onlyListCandidates fl).
Qed.

(** Listing and scanning never mix: in a run with [--only-list-candidates]
    no file is handed to [g.File], and [g.Match] is still unset when [Main]
    returns; in a run without it no name is printed by [Main]. *)
Theorem listing_and_scanning_never_mix (fl : Flags) (w : world) :
  exists r es,
    Main fl w = (r, record es w) ∧
    Forall (fun e => match e with
                     | FileCall _ => onlyListCandidates fl = false
                     | Print _ => onlyListCandidates fl = true
                     | _ => True
                     end) es ∧
    (onlyListCandidates fl = true ->
     forall g, r = Return g -> Match g = false).
Proof.
  destruct (Main_cases fl w)
    as [(_ & Hrun)|[(err & _ & _ & Hrun)|[(err & _ & Hrun)
       |(arg & re & ca & cb & g' & n & _ & _ & _ & _ & _ & _ & Hlist & Hrun)]]];
    eexists _, _; (split; [exact Hrun|]).
  - split; [by repeat constructor | by intros _ g [=]].
  - split; [by repeat constructor | by intros _ g [=]].
  - split; [|by intros _ g [=]].
    apply Forall_app_2; [|by repeat constructor].
    unfold profileStartEvents. destruct (String.eqb _ _); by repeat constructor.
  - split; [|intros Hl g [= <-]; by apply Hlist].
    apply Forall_app_2;
      [|apply Forall_app_2; [|apply Forall_app_2; [|apply Forall_app_2]]].
    + unfold profileStartEvents. destruct (String.eqb _ _); by repeat constructor.
    + by apply Forall_queryEvents.
    + by apply Forall_filterEvents.
    + apply Forall_scanEvents; [done|]. intros name.
      by destruct (onlyListCandidates fl).
    + unfold profileStopEvents. destruct (String.eqb _ _); by repeat constructor.
Qed.

Lemma selectCandidates_events (verbose : bool) (allowFres blockFres : list Regexp)
    (post : list uint32) (w : world) :
  selectCandidates verbose allowFres blockFres post w =
  (Return (filter (accepted allowFres blockFres) post),
   record (filterEvents verbose allowFres blockFres post) w).
Proof. apply selectCandidates_run. Qed.

Lemma deferred_events (path : string) (w : world) :
  deferred path w = (Return tt, record (profileStopEvents path) w).
Proof. apply deferred_run. Qed.






Lemma old_selectCandidates_events (verbose : bool) (fres : list Regexp)
    (post : list uint32) (w : world) :
  Old.selectCandidates verbose fres post w =
  (Return (filter (accepted fres []) post),
   record (filterEvents verbose fres [] post) w).
Proof.
  rewrite <- selectCandidates_events.
  unfold selectCandidates, Old.selectCandidates.
  rewrite orb_false_r. destruct (0 <? length fres)%nat; [|reflexivity].
  unfold bind. by rewrite old_filterLoop_run.
Qed.

Lemma old_searchLoop_content (post : list uint32) (g : Grep Regexp) (w : world) :
  Old.searchLoop post g w = searchLoop false post g w.
Proof.
  revert g w. induction post as [|fileid rest IH]; intros g w; [done|].
  rewrite searchLoop_cons. simpl. unfold bind. rewrite ix_Name_run. simpl.
  rewrite record_record. unfold visited, visitEvents. simpl.
  destruct (Limit (File g (Name fileid)) =? 0); [done | apply IH].
Qed.

(** The earlier revision and the current one on the same command line (the
    [-f] expressions as allow filters, no block filter, no listing): [Main]
    ends the same way, with the same final [g] or the same exit, and leaves
    the same trace.  They differ in the package-level [matches] alone: the
    current revision leaves it as it was, the earlier one has stored
    [g.Match] in it when [Main] returns. *)
Theorem current_Main_agrees_with_old (fl : Old.Flags) (w : world) :
  (Main (ofOld fl) w).1 = (Old.Main fl w).1 ∧
  trace (Main (ofOld fl) w).2 = trace (Old.Main fl w).2 ∧
  matches (Main (ofOld fl) w).2 = matches w ∧
  match (Old.Main fl w).1 with
  | Return g => matches (Old.Main fl w).2 = Match g
  | Exit _ => matches (Old.Main fl w).2 = matches w
  end.
Proof.
  destruct fl as [i vb br path ff ar lim].
  unfold ofOld, Main, Old.Main. simpl.
  destruct ar as [|arg [|arg' rest]]; try done.
  unfold bind.
  destruct (startProfile_cases path w) as [(es0 & -> & _)|(err & ->)]; [|done].
  destruct (Compile (effectivePattern i arg)) as [re|err] eqn:Hre;
    [rewrite (compileOrDie_ok _ _ _ Hre)
    |by rewrite (compileOrDie_fails _ _ _ Hre)].
  destruct (compileFilters_cases ff (record es0 w))
    as [(ca & _ & ->)|(? & ? & ? & err & _ & _ & _ & ->)]; [|done].
  simpl. rewrite !queryIndex_explicit.
  rewrite selectCandidates_events, old_selectCandidates_events.
  rewrite old_searchLoop_content.
  destruct (searchLoop_uniform false
              (filter (accepted ca []) (PostingQuery (queryOf br re)))
              (mkGrep (Some re) lim false)) as (g' & n & Hscan & _).
  rewrite !Hscan. simpl. rewrite !deferred_events. unfold ret. simpl.
  done.
Qed.

(** The setup reports what goes wrong in the order of the code, whatever
    else is wrong on the command line: a wrong number of arguments before
    anything else; then a profile that cannot be created, before the
    pattern is looked at; then a pattern that does not compile, before any
    filter is. *)
Theorem setup_errors_in_order (fl : Flags) (w : world) :
  (length (args fl) ≠ 1%nat -> Main fl w = (Exit 2, record [Usage] w)) ∧
  (forall arg perr,
     args fl = [arg] -> cpuProfile fl ≠ "" ->
     Create (cpuProfile fl) = Some perr ->
     Main fl w = (Exit 1, record [Fatal perr] w)) ∧
  (forall arg err,
     args fl = [arg] ->
     cpuProfile fl = "" ∨ Create (cpuProfile fl) = None ->
     Compile (effectivePattern (iFlag fl) arg) = inr err ->
     Main fl w =
     (Exit 1, record (profileStartEvents (cpuProfile fl) ++ [Fatal err]) w)).
Proof.
  split; [apply Main_usage|]. split.
  - intros arg perr Hargs Hne Hcreate. unfold Main. rewrite Hargs.
    by apply bind_exit, startProfile_fails.
  - intros arg err Hargs Hprof Herr. rewrite <- record_record.
    by apply (Main_pattern_fatal fl w _ arg err), startProfile_ok.
Qed.

End MoreWhole.

(** ** Concrete runs *)

#[local] Existing Instance Toy.toy.

(** The stand-in for [g.File] keeps both contracts asked of it above. *)
Lemma toyFile_does_not_raise (g : Grep string) (name : string) :
  Limit (Toy.toyFile g name) <= Limit g.
Proof.
  unfold Toy.toyFile. destruct (String.prefix _ name); simpl; [|lia].
  destruct (Z.ltb_spec 0 (Limit g)); lia.
Defined.

Lemma toyFile_keeps_unlimited (g : Grep string) (name : string) :
  Limit g < 0 -> Limit (Toy.toyFile g name) < 0.
Proof.
  unfold Toy.toyFile. intros Hg. destruct (String.prefix _ name); simpl; [|lia].
  destruct (Z.ltb_spec 0 (Limit g)); lia.
Defined.

(** Scenario 2 of the spec, with prefixes for expressions: an allow filter
    keeps the names it matches, in order. *)
Example allow_keeps_matching :
  selectCandidates (C:=Toy.toy) false ["go/"] [] [0; 1; 2] initial =
  (Return [0; 2], record [NameCall 0; NameCall 1; NameCall 2] initial).
Proof. reflexivity. Qed.

(** Scenario 3: a block filter drops the names it matches. *)
Example block_drops_matching :
  selectCandidates (C:=Toy.toy) false [] ["go/a_"] [0; 3] initial =
  (Return [0], record [NameCall 0; NameCall 3] initial).
Proof. reflexivity. Qed.

(** Scenario 5, run through [main]: listing with a budget of two. *)
Example list_budget_two :
  main (C:=Toy.toy) (mkFlags false true false false "" [] [] ["foo"] 2) =
  (0, record [PostingQueryCall (Some "(?m)foo");
              NameCall 0; Print "go/a"; NameCall 1; Print "txt/b"] initial).
Proof. reflexivity. Qed.

(** A budget that is zero at the start does not stop the listing. *)
Example list_budget_zero :
  main (C:=Toy.toy) (mkFlags false true false false "" [] [] ["foo"] 0) =
  (0, record [PostingQueryCall (Some "(?m)foo");
              NameCall 0; Print "go/a"; NameCall 1; Print "txt/b";
              NameCall 2; Print "go/c"; NameCall 3; Print "go/a_test"] initial).
Proof. reflexivity. Qed.

(** Candidate 3, [go/a_test], matches the allow expression [go/] and the
    block expression [go/a_]: it is left out. *)
Lemma blocked_is_excluded_witness :
  Forall (matchesName (C:=Toy.toy) (@Name Toy.toy 3)) ["go/"] ∧
  Exists (matchesName (C:=Toy.toy) (@Name Toy.toy 3)) ["go/a_"] ∧
  exists filtered w',
    selectCandidates (C:=Toy.toy) false ["go/"] ["go/a_"] [0; 1; 2; 3] initial =
    (Return filtered, w') ∧ 3 ∉ filtered.
Proof.
  assert (Hblock : Exists (matchesName (C:=Toy.toy) (@Name Toy.toy 3)) ["go/a_"]).
  { apply Exists_cons_hd. vm_compute. discriminate. }
  split; [|split; [exact Hblock|]].
  - repeat constructor. vm_compute. discriminate.
  - exact (blocked_is_excluded (C:=Toy.toy) false ["go/"] ["go/a_"]
             [0; 1; 2; 3] initial 3 Hblock).
Defined.

(** The budget along a content search over the four files with a budget of
    two, and along a listing. *)
Lemma budget_never_increases_witness :
  (exists gj wj gk wk,
     searchLoop (C:=Toy.toy) false (take 1 [0; 1; 2; 3]) (mkGrep None 2 false) initial
       = (Return gj, wj) ∧
     searchLoop (C:=Toy.toy) false (take 4 [0; 1; 2; 3]) (mkGrep None 2 false) initial
       = (Return gk, wk) ∧
     Limit gk <= Limit gj) ∧
  (exists gj wj gk wk,
     searchLoop (C:=Toy.toy) true (take 2 [0; 1; 2]) (mkGrep None 2 false) initial
       = (Return gj, wj) ∧
     searchLoop (C:=Toy.toy) true (take 3 [0; 1; 2]) (mkGrep None 2 false) initial
       = (Return gk, wk) ∧
     (gk, wk) = (gj, wj)).
Proof.
  split.
  - destruct (proj1 (budget_never_increases_zero_stops (C:=Toy.toy) false
                       [0; 1; 2; 3] (mkGrep None 2 false) initial
                       (fun H : false = true => False_ind _ (diff_false_true H))
                       (fun _ => toyFile_does_not_raise))
                    1%nat 4%nat ltac:(lia))
      as (gj & wj & gk & wk & Hj & Hk & Hle & _).
    by exists gj, wj, gk, wk.
  - assert (Hrange : min_int + Z.of_nat (length [0; 1; 2]) <= 2 <= max_int)
      by (vm_compute; split; discriminate).
    destruct (proj1 (budget_never_increases_zero_stops (C:=Toy.toy) true
                       [0; 1; 2] (mkGrep None 2 false) initial
                       (fun _ => Hrange)
                       (fun (H : true = false) _ _ =>
                          False_ind _ (diff_true_false H)))
                    2%nat 3%nat ltac:(lia))
      as (gj & wj & gk & wk & Hj & Hk & _ & Hstop).
    exists gj, wj, gk, wk. split; [exact Hj|]. split; [exact Hk|].
    apply Hstop; [lia|]. vm_compute in Hj. by injection Hj as <- _.
Defined.

(** An unlimited budget, in content mode and in listing mode. *)
Lemma unlimited_budget_witness :
  (exists g',
     searchLoop (C:=Toy.toy) false [0; 1; 2; 3] (mkGrep None (-1) false) initial =
     (Return g', record (concat (map (visitEvents false) [0; 1; 2; 3])) initial) ∧
     unlimited (Limit g')) ∧
  (exists g',
     searchLoop (C:=Toy.toy) true [0; 1; 2; 3] (mkGrep None (-1) false) initial =
     (Return g', record (concat (map (visitEvents true) [0; 1; 2; 3])) initial) ∧
     unlimited (Limit g')).
Proof.
  assert (Hu : unlimited (-1)) by (unfold unlimited; lia).
  split.
  - exact (unlimited_budget_scans_all (C:=Toy.toy) false [0; 1; 2; 3]
             (mkGrep None (-1) false) initial Hu
             (fun H : false = true => False_ind _ (diff_false_true H))
             (fun _ => toyFile_keeps_unlimited)).
  - assert (Hrange : min_int + Z.of_nat (length [0; 1; 2; 3]) <= -1)
      by (vm_compute; discriminate).
    exact (unlimited_budget_scans_all (C:=Toy.toy) true [0; 1; 2; 3]
             (mkGrep None (-1) false) initial Hu
             (fun _ => Hrange)
             (fun (H : true = false) _ _ _ => False_ind _ (diff_true_false H))).
Defined.

(** [csearch -i '(']: the pattern does not compile. *)
Lemma pattern_wrapped_and_fatal_witness :
  effectivePattern true "(" = "(?i)(?m)(" ∧
  Main (C:=Toy.toy) Toy.badPattern initial =
  (Exit 1, record [Fatal "missing closing )"] initial).
Proof.
  destruct (pattern_wrapped_and_fatal (C:=Toy.toy) Toy.badPattern initial
              "(" "missing closing )" eq_refl eq_refl)
    as (Hpat & _ & Hfatal).
  split; [exact Hpat|]. apply Hfatal. reflexivity.
Defined.

(** [csearch --allow-files go/ --block-files '(' foo]: the block expression
    does not compile, and nothing is searched. *)
Lemma invalid_filter_is_fatal_witness :
  Exists (invalidExpr (C:=Toy.toy)) (allowFiles Toy.badBlock ++ blockFiles Toy.badBlock) ∧
  exists code es,
    Main (C:=Toy.toy) Toy.badBlock initial = (Exit code, record es initial) ∧
    code ≠ 0 ∧ Forall (fun e => searches e = false) es.
Proof.
  assert (Hinv : Exists (invalidExpr (C:=Toy.toy))
                   (allowFiles Toy.badBlock ++ blockFiles Toy.badBlock)).
  { apply Exists_cons_tl, Exists_cons_hd. exact I. }
  split; [exact Hinv|].
  exact (proj1 (invalid_filter_is_fatal (C:=Toy.toy) Toy.badBlock initial Hinv)).
Defined.

(** C1 as the spec states it fails: [csearch --allow-files txt/ foo] scans
    one file, finds nothing, [g.Match] stays unset, and the process exits
    with status 0. *)
Lemma exit_zero_without_match :
  ¬ exitStatusFollowsMatch (C:=Toy.toy) Toy.textOnly.
Proof.
  intros Hclaim.
  specialize (Hclaim (mkGrep (Some "(?m)foo") (-1) false)
                (record [PostingQueryCall (Some "(?m)foo");
                         NameCall 0; NameCall 1; NameCall 2; NameCall 3;
                         NameCall 1; FileCall "txt/b"] initial)
                eq_refl).
  vm_compute in Hclaim. discriminate.
Qed.

(** The same command line in the earlier revision, [-f txt/ foo], exits
    with status 1. *)
Example old_exit_one_without_match :
  (Old.main (C:=Toy.toy) (Old.mkFlags false false false "" ["txt/"] ["foo"] (-1))).1 = 1.
Proof. reflexivity. Qed.

(** ** Concrete runs of the further properties *)

Lemma compileFilters_all_valid_witness :
  exists compiled,
    compileFilters (C:=Toy.toy) ["go/"; "txt/"] initial = (Return compiled, initial) ∧
    length compiled = 2%nat.
Proof.
  assert (Hvalid : Forall (fun s => ¬ invalidExpr (C:=Toy.toy) s) ["go/"; "txt/"])
    by (repeat constructor; vm_compute; tauto).
  destruct (compileFilters_all_valid (C:=Toy.toy) ["go/"; "txt/"] initial Hvalid)
    as (compiled & Hrun & Hlen & _).
  by exists compiled.
Defined.

Lemma filter_order_irrelevant_witness :
  selectCandidates (C:=Toy.toy) false ["go/"; "go/a"] ["txt"; "go/c"]
    [0; 1; 2; 3] initial =
  selectCandidates (C:=Toy.toy) false ["go/a"; "go/"] ["go/c"; "txt"]
    [0; 1; 2; 3] initial.
Proof.
  apply (filter_order_irrelevant (C:=Toy.toy) false
           ["go/"; "go/a"] ["go/a"; "go/"] ["txt"; "go/c"] ["go/c"; "txt"]
           [0; 1; 2; 3] initial).
  - apply perm_swap.
  - apply perm_swap.
Defined.

Lemma listing_prints_budget_many_witness :
  exists g',
    searchLoop (C:=Toy.toy) true [0; 1; 2; 3] (mkGrep None 3 false) initial =
    (Return g', record [NameCall 0; Print "go/a"; NameCall 1; Print "txt/b";
                        NameCall 2; Print "go/c"] initial) ∧
    Limit g' = 0.
Proof.
  assert (Hg : 0 < 3 <= max_int) by (vm_compute; split; [reflexivity | discriminate]).
  destruct (listing_prints_budget_many (C:=Toy.toy) [0; 1; 2; 3]
              (mkGrep None 3 false) initial Hg) as (g' & Hrun & Hlim & _).
  exists g'. split; [exact Hrun | exact Hlim].
Defined.

Lemma zero_budget_at_start_witness :
  exists g',
    searchLoop (C:=Toy.toy) true [0; 1; 2] (mkGrep None 0 false) initial =
    (Return g', record (scanEvents true [0; 1; 2]) initial) ∧
    Limit g' = -3.
Proof.
  assert (Hrange : min_int + Z.of_nat (length [0; 1; 2]) <= 0)
    by (vm_compute; discriminate).
  exact (proj1 (zero_budget_at_start (C:=Toy.toy) 0 [1; 2]
                  (mkGrep None 0 false) initial eq_refl Hrange)).
Defined.

(** [csearch --allow-files go/ --block-files go/a_ --only-list-candidates
    foo] *)
Lemma successful_run_visits_accepted_witness :
  exists g' seen,
    Main (C:=Toy.toy)
      (mkFlags false true false false "" ["go/"] ["go/a_"] ["foo"] (-1)) initial =
    (Return g',
     record ([PostingQueryCall (Some "(?m)foo");
              NameCall 0; NameCall 1; NameCall 2; NameCall 3] ++
             scanEvents true seen) initial) ∧
    forall fileid, fileid ∈ seen -> fileid ∈ [0; 1; 2; 3].
Proof.
  assert (Hvalid : Forall (fun s => ¬ invalidExpr (C:=Toy.toy) s) (["go/"] ++ ["go/a_"]))
    by (repeat constructor; vm_compute; tauto).
  destruct (successful_run_visits_accepted (C:=Toy.toy)
              (mkFlags false true false false "" ["go/"] ["go/a_"] ["foo"] (-1))
              initial "foo" "(?m)foo" eq_refl (or_introl eq_refl) eq_refl Hvalid)
    as (ca & cb & g' & n & Ha & Hb & Hrun & _ & _ & Hseen).
  exists g', (take n (filter (accepted ca cb) [0; 1; 2; 3])).
  split; [|intros fileid Hin; by apply Hseen].
  rewrite Hrun. cbv zeta. simpl.
  inversion Ha as [|? ? ? ? _ Ha']; subst. inversion Ha'; subst.
  inversion Hb as [|? ? ? ? _ Hb']; subst. inversion Hb'; subst.
  unfold filterEvents. simpl. by rewrite app_nil_r.
Defined.

(** [csearch -f txt/ foo] in the earlier revision: nothing found, status 1. *)
Lemma old_exit_status_witness :
  (Old.main (C:=Toy.toy) (Old.mkFlags false false false "" ["txt/"] ["foo"] (-1))).1 = 1.
Proof.
  exact (old_exit_status_follows_match (C:=Toy.toy)
           (Old.mkFlags false false false "" ["txt/"] ["foo"] (-1))
           (mkWorld false
              [PostingQueryCall (Some "(?m)foo");
               NameCall 0; NameCall 1; NameCall 2; NameCall 3;
               NameCall 1; FileCall "txt/b"])
           (mkGrep (Some "(?m)foo") (-1) false) eq_refl).
Defined.
